(** * LittleCrawler: a shallow embedding of the session and publish core

    The development follows the Python sources:
    - [src/platforms/xhs/publisher.py]     (module [Publisher])
    - [src/services/proxy/proxy_ip_pool.py] (module [Proxy_ip_pool])
    - [src/utils/human_behavior.py]        (module [Human_behavior])
    - [src/utils/browser_launcher.py]      (module [Browser_launcher])
    - [src/utils/async_file_writer.py]     (module [Async_file_writer])
    - [src/services/proxy/proxy_mixin.py]  (module [Proxy_mixin])
    - [api/routers/publisher.py]           (module [Router_publisher])

    Python [str] values are [string]s (the UTF-8 bytes of the text), Python
    [int]s are [Z] or [nat] (lengths and counters of calls), floats that carry
    durations are exact rationals [Q].  Every call that leaves the process
    (HTTP, the proxy provider, the operating system, the random generator)
    is an explicit argument of the function that performs it, and the calls a
    function issues are returned as a trace of events. *)

From Stdlib Require Import ZArith QArith Qminmax Lia Lqa Ascii String.
From stdpp Require Import base list strings gmap pretty.

Set Warnings "-register-all".
Close Scope Q_scope.
Open Scope string_scope.
Open Scope list_scope.
Open Scope Z_scope.

(** ** Python values shared by the modules *)

Module Py.

(** A decoded JSON document ([response.json()], [json.loads]). *)
Inductive json : Type :=
| JNull
| JBool (b : bool)
| JNum (n : Z)
| JStr (s : string)
| JArr (items : list json)
| JObj (fields : list (string * json)).

(** Text of the messages the sources build for a bare [Exception(...)]. *)
Inductive message : Type :=
| MsgApiError (detail : json)
    (* f"API 错误: {data.get('msg', response.text)}" *)
| MsgFileIdShortage (got wanted : nat)
    (* f"获取的 file_id 数量不足: {len(file_ids)} < {len(image_paths)}" *)
| MsgInvalidIp
    (* "[ProxyIpPool.get_proxy] 当前 IP 无效，重新获取" *)
| MsgNoPort (first last : Z)
    (* f"无法找到可用端口，已尝试 {start_port} 到 {port-1}" *).

(** The exceptions the modelled code raises or lets through.  All of them
    are subclasses of Python's [Exception]. *)
Inductive exn : Type :=
| Exception (m : message)
| ValueError (m : string)
| IndexError
| HTTPStatusError (status_code : Z)   (* httpx, [raise_for_status] *)
| TransportError                      (* httpx, no response at all *)
| JSONDecodeError
| UnicodeDecodeError                  (* text that is not UTF-8 *)
| RecursionError
| OverflowError
| RuntimeError (m : message)
| TimeoutExpired                      (* subprocess *)
| ProcessLookupError
| OSError                             (* any other operating system error *)
| AttributeError
| ProviderFailure                     (* raised by the proxy provider *)
| RetryError (last_attempt : exn).    (* tenacity, attempts used up *)

(** Result of running a Python function body. *)
Inductive outcome (A : Type) : Type :=
| Return (a : A)
| Raise (e : exn).
Arguments Return {A} a.
Arguments Raise {A} e.

Definition raised {A} (o : outcome A) : bool :=
  match o with Return _ => false | Raise _ => true end.

Definition InsufficientCredentialError (got wanted : nat) : exn :=
  Exception (MsgFileIdShortage got wanted).
Definition InvalidProxyError : exn := Exception MsgInvalidIp.
Definition ProviderError : exn := ProviderFailure.

(** [sub in s] on Python strings. *)
Fixpoint str_contains (sub s : string) : bool :=
  String.prefix sub s ||
  match s with
  | EmptyString => false
  | String _ rest => str_contains sub rest
  end.

(** Number of positions of [s] at which [sub] occurs. *)
Fixpoint occurrences (sub s : string) : nat :=
  ((if String.prefix sub s then 1 else 0) +
   match s with
   | EmptyString => 0
   | String _ rest => occurrences sub rest
   end)%nat.

(** [d.get(key)] on a JSON object; a decoded object has each key once. *)
Fixpoint dict_get (key : string) (fields : list (string * json)) : option json :=
  match fields with
  | [] => None
  | (k, v) :: rest => if decide (k = key) then Some v else dict_get key rest
  end.

(** [l] without the first element equal to [x]. *)
Fixpoint list_remove_first `{EqDecision A} (x : A) (l : list A) : list A :=
  match l with
  | [] => []
  | y :: rest => if decide (y = x) then rest else y :: list_remove_first x rest
  end.

(** [l.remove(x)]: [ValueError] when [x] is not in [l]. *)
Definition list_remove `{EqDecision A} (x : A) (l : list A) : outcome (list A) :=
  if decide (x ∈ l) then Return (list_remove_first x l)
  else Raise (ValueError "list.remove(x): x not in list").

End Py.
Import Py.

(** ** tenacity: [@retry(stop=stop_after_attempt(n), wait=wait_fixed(w))] *)

Module Tenacity.

(** The caller of a decorated function gets the value of the first attempt
    that returns, or [RetryError] holding the exception of the last attempt
    once the attempts are used up ([reraise] is left at its default). *)

Section Retry.
Context {St In A : Type}.
Variable attempt : St -> In -> outcome A * St.
(** The world the [k]-th attempt runs in (attempts are numbered from 0). *)
Variable world : nat -> In.

(** [retrying more k s]: run attempt number [k] from state [s], with [more]
    further attempts allowed after it.  The result carries the state left
    behind and the number of attempts that were made. *)
Fixpoint retrying (more k : nat) (s : St) : outcome A * St * nat :=
  match attempt s (world k) with
  | (Return a, s') => (Return a, s', S k)
  | (Raise e, s') =>
      match more with
      | O => (Raise (RetryError e), s', S k)
      | S more' => retrying more' (S k) s'
      end
  end.

Definition retry_stop_after_attempt (n : nat) (s : St) : outcome A * St * nat :=
  retrying (Nat.pred n) 0 s.

(** State in which attempt [k] starts when all earlier attempts were made. *)
Fixpoint state_before (s : St) (k : nat) : St :=
  match k with
  | O => s
  | S j => snd (attempt (state_before s j) (world j))
  end.

Definition outcome_at (s : St) (k : nat) : outcome A :=
  fst (attempt (state_before s k) (world k)).

End Retry.

End Tenacity.
Import Tenacity.

(** ** src/platforms/xhs/publisher.py *)

Module Publisher.

(** U+FEFF, the invisible character that brackets a topic tag. *)
Definition TOPIC_MARKER : string :=
  String (ascii_of_nat 239) (String (ascii_of_nat 187) (String (ascii_of_nat 191) EmptyString)).

Record TopicInfo : Type := mkTopicInfo {
  topic_id : string;
  topic_name : string;
  topic_link : string;
  topic_type : string
}.

Record ImageInfo : Type := mkImageInfo {
  file_id : string;
  width : Z;
  height : Z;
  local_path : string
}.

Record NoteContent : Type := mkNoteContent {
  title : string;
  desc : string;
  images : list string;
  topics : list string
}.

(** *** [_request] *)

Record Response : Type := mkResponse {
  status_code : Z;
  content_type : string;       (* the content-type header, empty if absent *)
  text : string;               (* response.text *)
  json_body : outcome json     (* response.json() *)
}.

(** httpx [Response.is_success]. *)
Definition is_success (r : Response) : bool :=
  (200 <=? status_code r) && (status_code r <=? 299).

Definition raise_for_status (r : Response) : outcome unit :=
  if is_success r then Return tt else Raise (HTTPStatusError (status_code r)).

(** What [_request] hands back: decoded JSON, or the response object. *)
Inductive request_value : Type :=
| Data (data : json)
| Raw (response : Response).

(** The body of [_request], one attempt.  [sent] is what
    [client.request(...)] produced. *)
Definition _request_attempt (sent : outcome Response) : outcome request_value :=
  match sent with
  | Raise e => Raise e
  | Return response =>
      match raise_for_status response with
      | Raise e => Raise e
      | Return _ =>
          if str_contains "application/json" (content_type response) then
            match json_body response with
            | Raise e => Raise e
            | Return data =>
                match data with
                | JObj fields =>
                    match dict_get "success" fields with
                    | Some (JBool false) =>
                        Raise (Exception (MsgApiError
                                 (default (JStr (text response)) (dict_get "msg" fields))))
                    | _ => Return (Data data)
                    end
                | _ => Return (Data data)
                end
            end
          else Return (Raw response)
      end
  end.

(** [_request] as callers see it, under
    [@retry(stop=stop_after_attempt(3), wait=wait_fixed(1))].  [replies k]
    is what the server does on the [k]-th attempt. *)
Definition _request (replies : nat -> outcome Response) : outcome request_value * nat :=
  let '(r, _, n) :=
    retry_stop_after_attempt (fun (_ : unit) sent => (_request_attempt sent, tt)) replies 3 tt
  in (r, n).

(** *** Uploads *)

Record Permit : Type := mkPermit {
  file_ids : list string;
  token : string
}.

(** The steps of a publish run that leave the process.  [EvPermit],
    [EvSearchTopic] and [EvPublish] each stand for one signed call through
    [_request], which sends its HTTP request once per attempt, so one to
    three times; [EvPut] is a single PUT, which is not retried. *)
Inductive event : Type :=
| EvPermit (file_count : nat)                 (* get_upload_permit(file_count) *)
| EvPut (fid : string) (image_path : string)  (* PUT {upload_host}/{file_id} *)
| EvSearchTopic (keyword : string)            (* search_topic(keyword) *)
| EvPublish (description : string).
    (* sign, then _request("POST", .../web_api/sns/v2/note) *)

(** Everything outside the process that a publish run talks to. *)
Record World : Type := mkWorld {
  get_upload_permit : nat -> outcome Permit;
  open_image : string -> outcome (Z * Z);            (* Image.open(path).size *)
  put_image : string -> string -> string -> outcome Response;
                                                     (* file_id, token, path *)
  search_topic : string -> outcome (list TopicInfo);
  post_note : string -> string -> list ImageInfo -> list TopicInfo -> outcome request_value
                                       (* what [_request] gave for the note *)
}.

Definition upload_image (w : World) (image_path fid tok : string)
  : outcome ImageInfo * list event :=
  match open_image w image_path with
  | Raise e => (Raise e, [])
  | Return (wd, ht) =>
      match put_image w fid tok image_path with
      | Raise e => (Raise e, [EvPut fid image_path])
      | Return response =>
          match raise_for_status response with
          | Raise e => (Raise e, [EvPut fid image_path])
          | Return _ =>
              (Return (mkImageInfo fid wd ht image_path), [EvPut fid image_path])
          end
      end
  end.

(** The loop [for i, path in enumerate(image_paths)] of [upload_images],
    entered at index [i] with [results] already collected. *)
Fixpoint upload_each (w : World) (fids : list string) (tok : string)
    (i : nat) (image_paths : list string) (results : list ImageInfo)
  : outcome (list ImageInfo) * list event :=
  match image_paths with
  | [] => (Return results, [])
  | path :: rest =>
      match fids !! i with
      | None => (Raise IndexError, [])
      | Some fid =>
          match upload_image w path fid tok with
          | (Raise e, tr) => (Raise e, tr)
          | (Return info, tr) =>
              let '(r, tr') := upload_each w fids tok (S i) rest (results ++ [info]) in
              (r, tr ++ tr')
          end
      end
  end.

Definition upload_images (w : World) (image_paths : list string)
  : outcome (list ImageInfo) * list event :=
  match image_paths with
  | [] => (Raise (ValueError "至少需要一张图片"), [])
  | _ :: _ =>
      let n := length image_paths in
      match get_upload_permit w n with
      | Raise e => (Raise e, [EvPermit n])
      | Return permit =>
          if (length (file_ids permit) <? n)%nat then
            (Raise (Exception (MsgFileIdShortage (length (file_ids permit)) n)),
             [EvPermit n])
          else
            let '(r, tr) := upload_each w (file_ids permit) (token permit) 0 image_paths [] in
            (r, EvPermit n :: tr)
      end
  end.

(** *** Description and publish *)

Definition tag_text (name : string) : string :=
  TOPIC_MARKER +:+ "#" +:+ name +:+ "[话题]#" +:+ TOPIC_MARKER.

(** One turn of the loop of [_build_desc_with_topics]. *)
Definition add_topic (result : string) (topic : TopicInfo) : string :=
  if str_contains ("#" +:+ topic_name topic) result then result
  else result +:+ " " +:+ tag_text (topic_name topic).

Definition _build_desc_with_topics (description : string) (tps : list TopicInfo) : string :=
  fold_left add_topic tps description.

(** The loop of [publish_note] that resolves the keywords: the first hit of
    each search is kept, a keyword without hits is dropped. *)
Fixpoint resolve_topics (w : World) (keywords : list string) (found : list TopicInfo)
  : outcome (list TopicInfo) * list event :=
  match keywords with
  | [] => (Return found, [])
  | keyword :: rest =>
      match search_topic w keyword with
      | Raise e => (Raise e, [EvSearchTopic keyword])
      | Return topic_list =>
          let found' := match topic_list with
                        | [] => found
                        | first :: _ => found ++ [first]
                        end in
          let '(r, tr) := resolve_topics w rest found' in
          (r, EvSearchTopic keyword :: tr)
      end
  end.

Record PublishResult : Type := mkPublishResult {
  success : bool;
  note_id : json;
  data : request_value
}.

(** [result.get("data", {}).get("note_id", empty)]; only a dict has [get]. *)
Definition note_id_of (result : request_value) : outcome json :=
  match result with
  | Data (JObj fields) =>
      match default (JObj []) (dict_get "data" fields) with
      | JObj inner => Return (default (JStr EmptyString) (dict_get "note_id" inner))
      | _ => Raise AttributeError
      end
  | _ => Raise AttributeError
  end.

Definition publish_note (w : World) (content : NoteContent)
  : outcome PublishResult * list event :=
  match upload_images w (images content) with
  | (Raise e, tr) => (Raise e, tr)
  | (Return imgs, tr1) =>
      match resolve_topics w (topics content) [] with
      | (Raise e, tr2) => (Raise e, tr1 ++ tr2)
      | (Return tps, tr2) =>
          let description := _build_desc_with_topics (desc content) tps in
          match post_note w (title content) description imgs tps with
          | Raise e => (Raise e, tr1 ++ tr2 ++ [EvPublish description])
          | Return result =>
              match note_id_of result with
              | Raise e => (Raise e, tr1 ++ tr2 ++ [EvPublish description])
              | Return nid =>
                  (Return (mkPublishResult true nid result),
                   tr1 ++ tr2 ++ [EvPublish description])
              end
          end
      end
  end.

Definition is_put (e : event) : bool :=
  match e with EvPut _ _ => true | _ => false end.


(** *** Sample inputs *)

(** A provider that grants a single upload slot. *)
Definition world_one_slot : World :=
  mkWorld (fun _ => Return (mkPermit ["slot-1"] "token"))
          (fun _ => Return (800, 600))
          (fun _ _ _ => Return (mkResponse 200 EmptyString EmptyString (Raise JSONDecodeError)))
          (fun _ => Return [])
          (fun _ _ _ _ => Return (Data (JObj []))).

Definition double_quote : string := String (ascii_of_nat 34) EmptyString.

(** The body [{"success": false, "msg": "busy"}]. *)
Definition refusal_text : string :=
  "{" +:+ double_quote +:+ "success" +:+ double_quote +:+ ": false, " +:+
  double_quote +:+ "msg" +:+ double_quote +:+ ": " +:+
  double_quote +:+ "busy" +:+ double_quote +:+ "}".

Definition refusal_json : json :=
  JObj [("success", JBool false); ("msg", JStr "busy")].


Definition refusal_as_text : Response :=
  mkResponse 200 "text/plain" refusal_text (Return refusal_json).

(** A world in which the topic search is down for all but one keyword. *)
Definition world_search_down : World :=
  mkWorld (fun _ => Return (mkPermit ["slot-1"] "token"))
          (fun _ => Return (800, 600))
          (fun _ _ _ => Return (mkResponse 200 EmptyString EmptyString (Raise JSONDecodeError)))
          (fun keyword => if decide (keyword = "tea") then Return [] else Raise TransportError)
          (fun _ _ _ _ => Return (Data (JObj []))).

(** A world in which the publish call is answered with a page, not JSON. *)
Definition world_plain_reply : World :=
  mkWorld (fun _ => Return (mkPermit ["slot-1"] "token"))
          (fun _ => Return (800, 600))
          (fun _ _ _ => Return (mkResponse 200 EmptyString EmptyString (Raise JSONDecodeError)))
          (fun _ => Return [])
          (fun _ _ _ _ => Return (Raw (mkResponse 200 "text/html" "ok" (Raise JSONDecodeError)))).

(** A server that cannot be reached at first and then answers. *)
Definition flaky_replies (k : nat) : outcome Response :=
  match k with
  | O => Raise TransportError
  | _ => Return refusal_as_text
  end.

(** *** [_sign_headers] *)

(** [headers] is [self.headers], [signed] what [sign_func(uri, data,
    method)] gave: a dict from header names to values, or a failure. *)
Definition _sign_headers (headers : gmap string string)
    (signed : outcome (gmap string string)) (origin : string)
  : outcome (gmap string string) :=
  match signed with
  | Raise e => Raise e
  | Return signs =>
      let updated :=
        <["Content-Type" := "application/json;charset=UTF-8"]>
          (<["Origin" := origin]>
             (<["X-T" := default EmptyString (signs !! "x-t")]>
                (<["X-S" := default EmptyString (signs !! "x-s")]> headers))) in
      Return match signs !! "x-s-common" with
             | Some common => <["x-S-Common" := common]> updated
             | None => updated
             end
  end.

(** The names [_sign_headers] writes. *)
Definition signed_names : list string :=
  ["X-S"; "X-T"; "Origin"; "Content-Type"; "x-S-Common"].

(** *** What the loops of a publish run amount to *)

(** The topic [publish_note] keeps for a keyword: the first hit, if any. *)
Definition first_hit (w : World) (keyword : string) : option TopicInfo :=
  match search_topic w keyword with
  | Return (first :: _) => Some first
  | _ => None
  end.

(** The PUT requests of a batch in which every asset gets through. *)
Definition all_puts (fids image_paths : list string) : list event :=
  zip_with EvPut fids image_paths.

Definition is_publish (e : event) : bool :=
  match e with EvPublish _ => true | _ => false end.

(** A world in which every image opens and every PUT answers 200. *)
Definition world_two_slots : World :=
  mkWorld (fun _ => Return (mkPermit ["slot-1"; "slot-2"; "slot-3"] "token"))
          (fun _ => Return (800, 600))
          (fun _ _ _ => Return (mkResponse 200 EmptyString EmptyString (Raise JSONDecodeError)))
          (fun keyword => if decide (keyword = "coffee")
                          then Return [mkTopicInfo "t1" "coffee" "link" "topic"]
                          else Return [])
          (fun _ _ _ _ => Return (Data (JObj []))).

End Publisher.

(** ** src/services/proxy/proxy_ip_pool.py *)

Module Proxy_ip_pool.

(** Modelled from the spec: [IpInfoModel] of [src/services/proxy/types.py],
    which is not among the sources.  The spec's ProxyEndpoint is
    {address, port, optional credentials, issued-at timestamp, computed
    expiry}; two endpoints are equal when all their fields are. *)
Record IpInfoModel : Type := mkIpInfoModel {
  ip : string;
  port : Z;
  user : string;
  password : string;
  expired_time_ts : Z
}.

#[global] Instance IpInfoModel_eq_dec : EqDecision IpInfoModel.
Proof. solve_decision. Defined.

(** Modelled from the spec: [IpInfoModel.is_expired], true when
    [now >= expiry - buffer_seconds]. *)
Definition is_expired (now : Z) (proxy : IpInfoModel) (buffer_seconds : Z) : bool :=
  expired_time_ts proxy - buffer_seconds <=? now.

Record ProxyIpPool : Type := mkProxyIpPool {
  ip_pool_count : Z;
  enable_validate_ip : bool;
  proxy_list : list IpInfoModel;
  current_proxy : option IpInfoModel
}.

Definition set_proxy_list (pool : ProxyIpPool) (l : list IpInfoModel) : ProxyIpPool :=
  mkProxyIpPool (ip_pool_count pool) (enable_validate_ip pool) l (current_proxy pool).

Definition set_current_proxy (pool : ProxyIpPool) (p : IpInfoModel) : ProxyIpPool :=
  mkProxyIpPool (ip_pool_count pool) (enable_validate_ip pool) (proxy_list pool) (Some p).

Inductive event : Type :=
| EvLoad (count : Z)              (* ip_provider.get_proxy(ip_pool_count) *)
| EvProbe (proxy : IpInfoModel).  (* GET valid_ip_url through the proxy *)

Definition is_load (e : event) : bool :=
  match e with EvLoad _ => true | EvProbe _ => false end.

(** What the outside does during one run of the body of [get_proxy]. *)
Record Attempt : Type := mkAttempt {
  provider_get_proxy : outcome (list IpInfoModel);
  random_draw : nat;            (* the draw behind random.choice *)
  probe : outcome Z             (* status code of the probe, or its failure *)
}.

Definition load_proxies (pool : ProxyIpPool) (reply : outcome (list IpInfoModel))
  : outcome unit * ProxyIpPool * list event :=
  match reply with
  | Raise e => (Raise e, pool, [EvLoad (ip_pool_count pool)])
  | Return l => (Return tt, set_proxy_list pool l, [EvLoad (ip_pool_count pool)])
  end.

Definition _reload_proxies (pool : ProxyIpPool) (reply : outcome (list IpInfoModel))
  : outcome unit * ProxyIpPool * list event :=
  load_proxies (set_proxy_list pool []) reply.

(** [response.status_code == 200]; a failure of the probe is raised again. *)
Definition _is_valid_proxy (probed : outcome Z) : outcome bool :=
  match probed with
  | Raise e => Raise e
  | Return status => Return (status =? 200)
  end.

(** [random.choice(l)]: [IndexError] on the empty list. *)
Definition random_choice {A} (l : list A) (draw : nat) : outcome A :=
  match l !! (draw mod length l)%nat with
  | Some x => Return x
  | None => Raise IndexError
  end.

Definition pool_state : Type := ProxyIpPool * list event.

(** The body of [get_proxy], one attempt.  The events it issues are added
    to the log kept next to the pool. *)
Definition get_proxy_attempt (st : pool_state) (w : Attempt)
  : outcome IpInfoModel * pool_state :=
  let '(pool, log) := st in
  let '(loaded, pool1, log1) :=
    if decide (length (proxy_list pool) = 0%nat) then
      let '(r, p, evs) := _reload_proxies pool (provider_get_proxy w) in
      (r, p, log ++ evs)
    else (Return tt, pool, log) in
  match loaded with
  | Raise e => (Raise e, (pool1, log1))
  | Return _ =>
      match random_choice (proxy_list pool1) (random_draw w) with
      | Raise e => (Raise e, (pool1, log1))
      | Return proxy =>
          match list_remove proxy (proxy_list pool1) with
          | Raise e => (Raise e, (pool1, log1))
          | Return remaining =>
              let pool2 := set_proxy_list pool1 remaining in
              if enable_validate_ip pool2 then
                match _is_valid_proxy (probe w) with
                | Raise e => (Raise e, (pool2, log1 ++ [EvProbe proxy]))
                | Return false =>
                    (Raise (Exception MsgInvalidIp), (pool2, log1 ++ [EvProbe proxy]))
                | Return true =>
                    (Return proxy,
                     (set_current_proxy pool2 proxy, log1 ++ [EvProbe proxy]))
                end
              else (Return proxy, (set_current_proxy pool2 proxy, log1))
          end
      end
  end.

(** [get_proxy] as callers see it, under
    [@retry(stop=stop_after_attempt(3), wait=wait_fixed(1))]: the outcome, the
    pool left behind, the events of the call and the number of attempts. *)
Definition get_proxy (pool : ProxyIpPool) (world : nat -> Attempt)
  : outcome IpInfoModel * ProxyIpPool * list event * nat :=
  let '(r, (pool', log), n) :=
    retry_stop_after_attempt get_proxy_attempt world 3 (pool, []) in
  (r, pool', log, n).

Definition is_current_proxy_expired (now : Z) (pool : ProxyIpPool) (buffer_seconds : Z) : bool :=
  match current_proxy pool with
  | None => true
  | Some p => is_expired now p buffer_seconds
  end.

(** The call site of [get_proxy] inside the pool: a plain call. *)
Definition get_or_refresh_proxy (now : Z) (pool : ProxyIpPool) (buffer_seconds : Z)
    (world : nat -> Attempt)
  : outcome (option IpInfoModel) * ProxyIpPool * list event * nat :=
  if is_current_proxy_expired now pool buffer_seconds then
    let '(r, pool', log, n) := get_proxy pool world in
    (match r with
     | Return p => Return (Some p)
     | Raise e => Raise e
     end, pool', log, n)
  else (Return (current_proxy pool), pool, [], 0%nat).

(** Successive [get_proxy] calls on one pool, each in its own world. *)
Fixpoint get_proxy_calls (pool : ProxyIpPool) (worlds : list (nat -> Attempt))
  : list (outcome IpInfoModel * list event) * ProxyIpPool :=
  match worlds with
  | [] => ([], pool)
  | world :: rest =>
      let '(r, pool', log, _) := get_proxy pool world in
      let '(rs, pool'') := get_proxy_calls pool' rest in
      ((r, log) :: rs, pool'')
  end.

(** The endpoints a run of calls handed out. *)
Fixpoint issued (rs : list (outcome IpInfoModel * list event)) : list IpInfoModel :=
  match rs with
  | [] => []
  | (Return p, _) :: rest => p :: issued rest
  | (Raise _, _) :: rest => issued rest
  end.

(** The pool and the log before attempt [k] of one call. *)
Definition before (pool : ProxyIpPool) (world : nat -> Attempt) (k : nat) : pool_state :=
  state_before get_proxy_attempt world (pool, []) k.

(** A log without a request to the provider. *)
Definition quiet (log : list event) : bool :=
  forallb (fun e => negb (is_load e)) log.

(** No call of the run asked the provider for endpoints. *)
Definition no_load (rs : list (outcome IpInfoModel * list event)) : bool :=
  forallb (fun r => quiet (snd r)) rs.



(** The pool a successful [load_proxies] leaves. *)
Definition loaded (pool : ProxyIpPool) (l : list IpInfoModel) : ProxyIpPool :=
  snd (fst (load_proxies pool (Return l))).

(** *** Sample inputs *)

Definition endpoint_a : IpInfoModel := mkIpInfoModel "10.0.0.1" 8080 EmptyString EmptyString 1000.
Definition endpoint_b : IpInfoModel := mkIpInfoModel "10.0.0.2" 8080 EmptyString EmptyString 1000.

Definition fresh_pool (validate : bool) : ProxyIpPool := mkProxyIpPool 2 validate [] None.

(** The provider is not needed, the first element is drawn, the probe
    answers with [status]. *)
Definition answer (status : Z) : Attempt := mkAttempt (Raise ProviderFailure) 0 (Return status).

(** First probe 503, every later probe 200. *)
Definition flaky_world (k : nat) : Attempt :=
  match k with O => answer 503 | _ => answer 200 end.



(** A provider that has nothing to offer. *)
Definition empty_world (k : nat) : Attempt := mkAttempt (Return []) k (Return 200).

End Proxy_ip_pool.

(** ** src/utils/human_behavior.py *)

Module Human_behavior.

Open Scope Q_scope.

(** The settings read through [getattr(config, ...)]. *)
Record Config : Type := mkConfig {
  ENABLE_HUMAN_BEHAVIOR : bool;
  SESSION_BREAK_INTERVAL : Z;
  CRAWLER_MAX_SLEEP_SEC : Q;
  PAGE_VIEW_MIN_SEC : Q;
  PAGE_VIEW_MAX_SEC : Q;
  ACTION_INTERVAL_MIN_SEC : Q;
  ACTION_INTERVAL_MAX_SEC : Q;
  COMMENT_CRAWL_MIN_SEC : Q;
  COMMENT_CRAWL_MAX_SEC : Q;
  SESSION_BREAK_MIN_SEC : Q;
  SESSION_BREAK_MAX_SEC : Q
}.

(** config/base_config.py *)
Definition base_config : Config :=
  mkConfig true 30%Z 2 2 5 (1 # 2) (3 # 2) 1 (5 # 2) 10 30.

Record HumanBehavior : Type := mkHumanBehavior {
  enabled : bool;
  action_count : Z;
  break_interval : Z
}.

Definition init (cfg : Config) : HumanBehavior :=
  mkHumanBehavior (ENABLE_HUMAN_BEHAVIOR cfg) 0%Z (SESSION_BREAK_INTERVAL cfg).

(** [random.uniform(a, b)] is [a + (b - a) * random()], with [random()] in
    [0, 1); [u] is that draw. *)
Definition uniform (a b u : Q) : Q := a + (b - a) * u.

(** Each delay function returns the duration it sleeps for. *)
Definition random_delay (cfg : Config) (self : HumanBehavior) (min_sec max_sec u : Q) : Q :=
  if negb (enabled self) then CRAWLER_MAX_SLEEP_SEC cfg
  else uniform min_sec max_sec u.

Definition page_view_delay (cfg : Config) (self : HumanBehavior) (content_length : Z) (u : Q) : Q :=
  if negb (enabled self) then CRAWLER_MAX_SLEEP_SEC cfg
  else
    let min_sec := PAGE_VIEW_MIN_SEC cfg in
    let max_sec := PAGE_VIEW_MAX_SEC cfg in
    let extra_time := Qmin (inject_Z content_length / 2000) 2 in
    uniform min_sec max_sec u + extra_time.

Definition action_delay (cfg : Config) (self : HumanBehavior) (u : Q) : Q :=
  if negb (enabled self) then CRAWLER_MAX_SLEEP_SEC cfg
  else uniform (ACTION_INTERVAL_MIN_SEC cfg) (ACTION_INTERVAL_MAX_SEC cfg) u.

Definition comment_crawl_delay (cfg : Config) (self : HumanBehavior) (u : Q) : Q :=
  if negb (enabled self) then CRAWLER_MAX_SLEEP_SEC cfg
  else uniform (COMMENT_CRAWL_MIN_SEC cfg) (COMMENT_CRAWL_MAX_SEC cfg) u.

Definition session_break_delay (cfg : Config) (self : HumanBehavior) (u : Q) : Q :=
  if negb (enabled self) then CRAWLER_MAX_SLEEP_SEC cfg
  else uniform (SESSION_BREAK_MIN_SEC cfg) (SESSION_BREAK_MAX_SEC cfg) u.

(** [check_and_take_break]: the new state and the session break that was
    waited for, if any. *)
Definition check_and_take_break (cfg : Config) (self : HumanBehavior) (u : Q)
  : HumanBehavior * option Q :=
  if negb (enabled self) then (self, None)
  else
    let counted := mkHumanBehavior (enabled self) (action_count self + 1)%Z (break_interval self) in
    if (break_interval counted <=? action_count counted)%Z then
      (mkHumanBehavior (enabled counted) 0%Z (break_interval counted),
       Some (session_break_delay cfg counted u))
    else (counted, None).

(** One [check_and_take_break] per draw of [us], in order. *)
Fixpoint record_actions (cfg : Config) (self : HumanBehavior) (us : list Q)
  : HumanBehavior * list (option Q) :=
  match us with
  | [] => (self, [])
  | u :: rest =>
      let '(self', waited) := check_and_take_break cfg self u in
      let '(final, waits) := record_actions cfg self' rest in
      (final, waited :: waits)
  end.

(** The delay categories and the interval configured for each. *)
Inductive category : Type :=
| Generic (min_sec max_sec : Q)
| PageView (content_length : Z)
| MicroAction
| CommentRead
| SessionBreak.

Definition delay (cfg : Config) (self : HumanBehavior) (c : category) (u : Q) : Q :=
  match c with
  | Generic min_sec max_sec => random_delay cfg self min_sec max_sec u
  | PageView content_length => page_view_delay cfg self content_length u
  | MicroAction => action_delay cfg self u
  | CommentRead => comment_crawl_delay cfg self u
  | SessionBreak => session_break_delay cfg self u
  end.

Definition interval (cfg : Config) (c : category) : Q * Q :=
  match c with
  | Generic min_sec max_sec => (min_sec, max_sec)
  | PageView _ => (PAGE_VIEW_MIN_SEC cfg, PAGE_VIEW_MAX_SEC cfg)
  | MicroAction => (ACTION_INTERVAL_MIN_SEC cfg, ACTION_INTERVAL_MAX_SEC cfg)
  | CommentRead => (COMMENT_CRAWL_MIN_SEC cfg, COMMENT_CRAWL_MAX_SEC cfg)
  | SessionBreak => (SESSION_BREAK_MIN_SEC cfg, SESSION_BREAK_MAX_SEC cfg)
  end.

(** The extra reading time of a category: only page views have one. *)
Definition extra (c : category) : Q :=
  match c with
  | PageView content_length => Qmin (inject_Z content_length / 2000) 2
  | _ => 0
  end.

(** [get_random_delay]: the duration, without sleeping. *)
Definition get_random_delay (cfg : Config) (self : HumanBehavior) (min_sec max_sec u : Q) : Q :=
  if negb (enabled self) then CRAWLER_MAX_SLEEP_SEC cfg
  else uniform min_sec max_sec u.

(** The dict [configs] of [get_delay_config]; [crawler_min_sleep_sec] is
    [getattr(config, 'CRAWLER_MIN_SLEEP_SEC', 1.5)]. *)
Definition delay_configs (cfg : Config) (crawler_min_sleep_sec : Q) : gmap string (Q * Q) :=
  <["page_view" := (PAGE_VIEW_MIN_SEC cfg, PAGE_VIEW_MAX_SEC cfg)]>
    (<["action" := (ACTION_INTERVAL_MIN_SEC cfg, ACTION_INTERVAL_MAX_SEC cfg)]>
       (<["comment" := (COMMENT_CRAWL_MIN_SEC cfg, COMMENT_CRAWL_MAX_SEC cfg)]>
          (<["session_break" := (SESSION_BREAK_MIN_SEC cfg, SESSION_BREAK_MAX_SEC cfg)]>
             {["default" := (crawler_min_sleep_sec, CRAWLER_MAX_SLEEP_SEC cfg)]}))).

(** [configs.get(action_type, configs['default'])] *)
Definition get_delay_config (cfg : Config) (crawler_min_sleep_sec : Q) (action_type : string)
  : Q * Q :=
  default (crawler_min_sleep_sec, CRAWLER_MAX_SLEEP_SEC cfg)
          (delay_configs cfg crawler_min_sleep_sec !! action_type).

(** The key of [get_delay_config] for the categories that have one. *)
Definition action_type_of (c : category) : option string :=
  match c with
  | Generic _ _ => None
  | PageView _ => Some "page_view"
  | MicroAction => Some "action"
  | CommentRead => Some "comment"
  | SessionBreak => Some "session_break"
  end.

(** The session breaks among the waits of a run of calls. *)
Definition breaks (waits : list (option Q)) : nat :=
  length (filter (fun w => is_Some w) waits).

End Human_behavior.

(** ** src/utils/browser_launcher.py *)

Module Browser_launcher.

Record Popen : Type := mkPopen { pid : Z }.

Record BrowserLauncher : Type := mkBrowserLauncher {
  system : string;                  (* platform.system() *)
  browser_process : option Popen;
  debug_port : option Z
}.

Definition clear_process (self : BrowserLauncher) : BrowserLauncher :=
  mkBrowserLauncher (system self) None (debug_port self).

Inductive signal : Type := SIGTERM | SIGKILL.

(** The calls [cleanup] makes on the process and the operating system. *)
Inductive action : Type :=
| Poll (p : Z)
| Terminate (p : Z)
| Wait (p : Z)
| Taskkill (p : Z)
| Getpgid (p : Z)
| Killpg (pgid : Z) (s : signal).

(** How the operating system answers during one [cleanup]. *)
Record OS : Type := mkOS {
  poll : option Z;               (* process.poll(): the exit code, if any *)
  terminate : outcome unit;      (* process.terminate() *)
  wait_graceful : outcome unit;  (* the first process.wait(timeout=5) *)
  taskkill : outcome unit;       (* subprocess.run(["taskkill", ...]) *)
  wait_forced : outcome unit;    (* the process.wait(timeout=5) after a kill *)
  getpgid : outcome Z;           (* os.getpgid(process.pid) *)
  killpg_term : outcome unit;    (* os.killpg(pgid, SIGTERM) *)
  killpg_kill : outcome unit     (* os.killpg(pgid, SIGKILL) *)
}.

(** [a; b] where [a] may raise. *)
Definition and_then (first : outcome unit * list action)
    (next : outcome unit * list action) : outcome unit * list action :=
  match first with
  | (Raise e, tr) => (Raise e, tr)
  | (Return _, tr) => let '(r, tr') := next in (r, tr ++ tr')
  end.

(** The Windows branch of the [try] block. *)
Definition stop_windows (os : OS) (process : Popen) : outcome unit * list action :=
  and_then (terminate os, [Terminate (pid process)])
    match wait_graceful os with
    | Return _ => (Return tt, [Wait (pid process)])
    | Raise TimeoutExpired =>
        and_then (Return tt, [Wait (pid process)])
          (and_then (taskkill os, [Taskkill (pid process)])
                    (wait_forced os, [Wait (pid process)]))
    | Raise e => (Raise e, [Wait (pid process)])
    end.

(** The branch of the [try] block for every other system. *)
Definition stop_posix (os : OS) (process : Popen) : outcome unit * list action :=
  match getpgid os with
  | Raise e => (Raise e, [Getpgid (pid process)])
  | Return pgid =>
      match killpg_term os with
      | Raise ProcessLookupError =>
          (Return tt, [Getpgid (pid process); Killpg pgid SIGTERM])
      | Raise e => (Raise e, [Getpgid (pid process); Killpg pgid SIGTERM])
      | Return _ =>
          and_then (Return tt, [Getpgid (pid process); Killpg pgid SIGTERM])
            match wait_graceful os with
            | Return _ => (Return tt, [Wait (pid process)])
            | Raise TimeoutExpired =>
                and_then (Return tt, [Wait (pid process)])
                  (and_then (killpg_kill os, [Killpg pgid SIGKILL])
                            (wait_forced os, [Wait (pid process)]))
            | Raise e => (Raise e, [Wait (pid process)])
            end
      end
  end.

(** [except Exception as e: logger.warning(...)]: every exception of [exn]
    is an [Exception], so the handler takes them all. *)
Definition except_Exception (body : outcome unit * list action) : outcome unit * list action :=
  match body with
  | (Raise _, tr) => (Return tt, tr)
  | (Return _, tr) => (Return tt, tr)
  end.

Definition cleanup (self : BrowserLauncher) (os : OS)
  : outcome unit * BrowserLauncher * list action :=
  match browser_process self with
  | None => (Return tt, self, [])
  | Some process =>
      match poll os with
      | Some _ => (Return tt, clear_process self, [Poll (pid process)])
      | None =>
          let '(r, tr) :=
            except_Exception
              (if decide (system self = "Windows") then stop_windows os process
               else stop_posix os process) in
          (* finally: self.browser_process = None *)
          (r, clear_process self, Poll (pid process) :: tr)
      end
  end.

(** *** [find_available_port] *)






(** *** [launch_browser] *)

(** The command line; [user_data_dir] is [None] for Python's [None]. *)
Definition launch_args (browser_path : string) (port : Z) (headless : bool)
    (user_data_dir : option string) : list string :=
  [browser_path;
   "--remote-debugging-port=" +:+ pretty port;
   "--remote-debugging-address=0.0.0.0";
   "--no-first-run";
   "--no-default-browser-check";
   "--disable-background-timer-throttling";
   "--disable-backgrounding-occluded-windows";
   "--disable-renderer-backgrounding";
   "--disable-features=TranslateUI";
   "--disable-ipc-flooding-protection";
   "--disable-hang-monitor";
   "--disable-prompt-on-repost";
   "--disable-sync";
   "--disable-dev-shm-usage";
   "--no-sandbox";
   "--disable-blink-features=AutomationControlled";
   "--exclude-switches=enable-automation";
   "--disable-infobars"]
  ++ (if headless then ["--headless=new"; "--disable-gpu"] else ["--start-maximized"])
  ++ match user_data_dir with
     | Some dir => if decide (dir = EmptyString) then []
                   else ["--user-data-dir=" +:+ dir]
     | None => []
     end.

(** [spawn] is [subprocess.Popen] on the command line. *)
Definition launch_browser (self : BrowserLauncher) (spawn : list string -> outcome Popen)
    (browser_path : string) (port : Z) (headless : bool) (user_data_dir : option string)
  : outcome Popen * BrowserLauncher :=
  match spawn (launch_args browser_path port headless user_data_dir) with
  | Return process =>
      (Return process, mkBrowserLauncher (system self) (Some process) (debug_port self))
  | Raise e => (Raise e, self)
  end.

Definition is_sigkill (a : action) : bool :=
  match a with Killpg _ SIGKILL => true | _ => false end.

Definition is_taskkill (a : action) : bool :=
  match a with Taskkill _ => true | _ => false end.

(** A system on which the browser ignores SIGTERM for five seconds. *)
Definition stubborn_os : OS :=
  mkOS None (Return tt) (Raise TimeoutExpired) (Return tt) (Return tt)
       (Return 4242) (Return tt) (Return tt).

End Browser_launcher.

(** ** src/utils/async_file_writer.py *)

Module Async_file_writer.

Record AsyncFileWriter : Type := mkAsyncFileWriter {
  platform : string;
  crawler_type : string
}.

(** [today] is [utils.get_current_date()]. *)
Definition _get_file_path (self : AsyncFileWriter) (today file_type item_type : string) : string :=
  "data/" +:+ platform self +:+ "/" +:+ file_type +:+ "/" +:+
  crawler_type self +:+ "_" +:+ item_type +:+ "_" +:+ today +:+ "." +:+ file_type.

Section Json.

(** [f.read()] on a target opened with [encoding='utf-8']: the text of the
    stored bytes, or [UnicodeDecodeError] when they are not UTF-8. *)
Variable read_text : string -> outcome string.
(** [json.loads]: the document, or [JSONDecodeError], or another error
    ([RecursionError] on text that is nested too deeply). *)
Variable json_loads : string -> outcome json.
(** [json.dumps(..., ensure_ascii=False, indent=4)] *)
Variable json_dumps : json -> string.

(** The body of the [try]: read the target, decode it if there is text,
    wrap a document that is not a list. *)
Definition try_read (stored : string) : outcome (list json) :=
  match read_text stored with
  | Raise e => Raise e
  | Return content =>
      match (if decide (content = EmptyString) then Return (JArr [])
             else json_loads content) with
      | Raise e => Raise e
      | Return (JArr items) => Return items
      | Return other => Return [other]              (* not isinstance(.., list) *)
      end
  end.

(** The records found in the target before the append.  A path maps to the
    bytes stored under it.  Of the errors of the [try] body only
    [json.JSONDecodeError] is caught. *)
Definition read_existing (fs : gmap string string) (file_path : string)
  : outcome (list json) :=
  match fs !! file_path with
  | Some stored =>
      if (0 <? String.length stored)%nat then     (* exists and getsize > 0 *)
        match try_read stored with
        | Raise JSONDecodeError => Return []      (* except json.JSONDecodeError *)
        | tried => tried
        end
      else Return []
  | None => Return []
  end.

(** The body of [write_single_item_to_json], run under the writer's lock.
    The target is opened for writing only after the read went through. *)
Definition write_single_item_to_json (fs : gmap string string) (file_path : string)
    (item : json) : outcome unit * gmap string string :=
  match read_existing fs file_path with
  | Raise e => (Raise e, fs)
  | Return existing_data =>
      (Return tt, <[file_path := json_dumps (JArr (existing_data ++ [item]))]> fs)
  end.

End Json.

(** *** Sample inputs *)

Definition byte_of (c : ascii) : Z := Z.of_nat (nat_of_ascii c).

Definition between (lo hi : Z) (c : ascii) : bool :=
  (lo <=? byte_of c) && (byte_of c <=? hi).

(** Strict UTF-8, as Python's codec checks it: no stray or missing
    continuation bytes, no overlong forms, no surrogates, nothing above
    U+10FFFF. *)
Fixpoint utf8_valid (s : string) : bool :=
  match s with
  | EmptyString => true
  | String c rest =>
      let b := byte_of c in
      if b <=? 127 then utf8_valid rest
      else if between 194 223 c then
        match rest with
        | String c1 rest1 => between 128 191 c1 && utf8_valid rest1
        | _ => false
        end
      else if between 224 239 c then
        match rest with
        | String c1 (String c2 rest2) =>
            between (if b =? 224 then 160 else 128) (if b =? 237 then 159 else 191) c1
            && between 128 191 c2 && utf8_valid rest2
        | _ => false
        end
      else if between 240 244 c then
        match rest with
        | String c1 (String c2 (String c3 rest3)) =>
            between (if b =? 240 then 144 else 128) (if b =? 244 then 143 else 191) c1
            && between 128 191 c2 && between 128 191 c3 && utf8_valid rest3
        | _ => false
        end
      else false
  end.

(** Reading in text mode turns each of CR LF and CR into LF. *)
Fixpoint universal_newlines (s : string) : string :=
  match s with
  | EmptyString => EmptyString
  | String c rest =>
      if (byte_of c =? 13) then
        match rest with
        | String c1 rest1 =>
            if (byte_of c1 =? 10) then String c1 (universal_newlines rest1)
            else String (ascii_of_nat 10) (universal_newlines rest)
        | EmptyString => String (ascii_of_nat 10) EmptyString
        end
      else String c (universal_newlines rest)
  end.

Definition utf8_read (stored : string) : outcome string :=
  if utf8_valid stored then Return (universal_newlines stored)
  else Raise UnicodeDecodeError.






(** *** Runs of appends, and the row format *)

Section Runs.

Variable read_text : string -> outcome string.
Variable json_loads : string -> outcome json.
Variable json_dumps : json -> string.

(** [write_single_item_to_json] for each record of [items], in order. *)
Fixpoint write_items_to_json (fs : gmap string string) (file_path : string)
    (items : list json) : gmap string string :=
  match items with
  | [] => fs
  | item :: rest =>
      write_items_to_json
        (snd (write_single_item_to_json read_text json_loads json_dumps fs file_path item))
        file_path rest
  end.

(** [header_line item] is what [writer.writeheader()] writes for
    [fieldnames=item.keys()], [row_line item] what [writer.writerow(item)]
    writes. *)
Variable header_line : json -> string.
Variable row_line : json -> string.

(** The body of [write_to_csv], run under the writer's lock.  Opening in
    append mode creates the target; [f.tell()] is 0 on an empty target. *)
Definition write_to_csv (fs : gmap string string) (file_path : string) (item : json)
  : outcome unit * gmap string string :=
  let file_exists := bool_decide (is_Some (fs !! file_path)) in
  let content := default EmptyString (fs !! file_path) in
  let head :=
    if negb file_exists || (String.length content =? 0)%nat then header_line item
    else EmptyString in
  (Return tt, <[file_path := content +:+ head +:+ row_line item]> fs).

Fixpoint write_items_to_csv (fs : gmap string string) (file_path : string)
    (items : list json) : gmap string string :=
  match items with
  | [] => fs
  | item :: rest =>
      write_items_to_csv (snd (write_to_csv fs file_path item)) file_path rest
  end.

End Runs.

(** The rows of [items], one after the other. *)
Fixpoint rows (row_line : json -> string) (items : list json) : string :=
  match items with
  | [] => EmptyString
  | item :: rest => row_line item +:+ rows row_line rest
  end.

(** A codec for lists of [null]: the list of length n is written as n + 1
    characters. *)
Fixpoint marks (n : nat) : string :=
  match n with O => EmptyString | S n' => String "x" (marks n') end.

Definition count_dumps (document : json) : string :=
  match document with
  | JArr items => marks (S (length items))
  | _ => EmptyString
  end.

Definition count_loads (content : string) : outcome json :=
  match String.length content with
  | O => Raise JSONDecodeError
  | S n => Return (JArr (replicate n JNull))
  end.

End Async_file_writer.

(** ** src/services/proxy/proxy_mixin.py *)

Module Proxy_mixin.
Import Proxy_ip_pool.

(** The API client the mixin is mixed into: its proxy URL and its pool. *)
Record Client : Type := mkClient {
  proxy : option string;
  _proxy_ip_pool : option ProxyIpPool
}.

(** The URL built from an endpoint; the credentials go in when both are
    non-empty. *)
Definition proxy_url (p : IpInfoModel) : string :=
  if bool_decide (user p ≠ EmptyString ∧ password p ≠ EmptyString) then
    "http://" +:+ user p +:+ ":" +:+ password p +:+ "@" +:+ ip p +:+ ":" +:+ pretty (port p)
  else "http://" +:+ ip p +:+ ":" +:+ pretty (port p).

(** [_refresh_proxy_if_expired]; [now] is the clock at the mixin's own
    check, [now'] the clock at the check inside [get_or_refresh_proxy]. *)
Definition _refresh_proxy_if_expired (now now' : Z) (self : Client) (world : nat -> Attempt)
  : outcome unit * Client * list event :=
  match _proxy_ip_pool self with
  | None => (Return tt, self, [])
  | Some pool =>
      if is_current_proxy_expired now pool 30 then
        match get_or_refresh_proxy now' pool 30 world with
        | (Return (Some new_proxy), pool', log, _) =>
            (Return tt, mkClient (Some (proxy_url new_proxy)) (Some pool'), log)
        | (Return None, pool', log, _) =>
            (Raise AttributeError, mkClient (proxy self) (Some pool'), log)
        | (Raise e, pool', log, _) =>
            (Raise e, mkClient (proxy self) (Some pool'), log)
        end
      else (Return tt, self, [])
  end.

End Proxy_mixin.

(** ** api/routers/publisher.py: the registry of uploaded images *)

Module Router_publisher.
Import Publisher.

(** What an endpoint answers: a value, or [HTTPException(status_code)]. *)
Inductive reply (A : Type) : Type :=
| Ok (a : A)
| HTTPException (status : Z).
Arguments Ok {A} a.
Arguments HTTPException {A} status.

(** The module state: [_uploaded_images], and the temporary files that
    exist on disk. *)
Record Store : Type := mkStore {
  _uploaded_images : gmap string ImageInfo;
  files : gset string
}.

Definition allowed_types : list string := ["image/jpeg"; "image/png"; "image/webp"].

(** The steps of [upload_image] inside its [try]: permit, first slot,
    upload. *)
Definition upload_one (w : World) (tmp_path : string)
  : outcome ImageInfo * list event :=
  match get_upload_permit w 1 with
  | Raise e => (Raise e, [EvPermit 1])
  | Return permit =>
      match file_ids permit !! 0%nat with
      | None => (Raise IndexError, [EvPermit 1])
      | Some fid =>
          let '(r, tr) := Publisher.upload_image w tmp_path fid (token permit) in
          (r, EvPermit 1 :: tr)
      end
  end.

(** The endpoint [POST /publisher/upload]; [publisher] is
    [get_publisher()], [tmp_path] the name of the temporary file the content
    is saved to (saving it is taken to go through).  The answer carries the
    image record; the preview URL of the response is left out. *)
Definition upload_image (publisher : option World) (st : Store)
    (content_type tmp_path : string)
  : reply ImageInfo * Store * list event :=
  match publisher with
  | None => (HTTPException 503, st, [])
  | Some w =>
      if bool_decide (content_type ∈ allowed_types) then
        let saved := mkStore (_uploaded_images st) ({[tmp_path]} ∪ files st) in
        match upload_one w tmp_path with
        | (Return info, tr) =>
            (Ok info,
             mkStore (<[file_id info := info]> (_uploaded_images saved)) (files saved),
             tr)
        | (Raise _, tr) => (HTTPException 500, saved, tr)
        end
      else (HTTPException 400, st, [])
  end.

(** The endpoint [DELETE /publisher/upload/{file_id}]; [unlinked] tells
    whether [os.unlink] went through. *)
Definition delete_uploaded_image (st : Store) (fid : string) (unlinked : bool)
  : reply unit * Store :=
  match _uploaded_images st !! fid with
  | None => (HTTPException 404, st)
  | Some info =>
      let tmp_path := local_path info in
      let files' :=
        if bool_decide (tmp_path ≠ EmptyString ∧ tmp_path ∈ files st) && unlinked
        then files st ∖ {[tmp_path]} else files st in
      (Ok tt, mkStore (delete fid (_uploaded_images st)) files')
  end.

End Router_publisher.

(** * Properties *)

(** ** Substrings *)

Section Substrings.

Lemma prefix_app_l (p s r : string) :
  String.prefix p s = true → String.prefix p (s +:+ r) = true.
Proof.
  revert s; induction p as [|a p IH]; intros s H.
  - by destruct (s +:+ r).
  - destruct s as [|b s]; simpl in *; [discriminate|].
    destruct (ascii_dec a b); [by apply IH | discriminate].
Qed.

Lemma prefix_app_self (p r : string) : String.prefix p (p +:+ r) = true.
Proof.
  induction p as [|a p IH]; simpl.
  - by destruct r.
  - by destruct (ascii_dec a a).
Qed.

Lemma str_contains_prefix (p s : string) :
  String.prefix p s = true → str_contains p s = true.
Proof. intros H. destruct s; cbn [str_contains]; rewrite H; done. Qed.

Lemma str_contains_app_l (p s r : string) :
  str_contains p s = true → str_contains p (s +:+ r) = true.
Proof.
  induction s as [|a s IH]; simpl; intros H.
  - rewrite orb_false_r in H. apply str_contains_prefix.
    by apply (prefix_app_l p EmptyString r).
  - apply orb_true_iff in H as [H|H]; apply orb_true_iff.
    + left. by apply (prefix_app_l p (String a s) r).
    + right. by apply IH.
Qed.

Lemma str_contains_app_r (p s r : string) :
  str_contains p r = true → str_contains p (s +:+ r) = true.
Proof.
  intros H. induction s as [|a s IH]; simpl; [done|].
  rewrite IH. apply orb_true_r.
Qed.

End Substrings.

(** ** Publisher: composing the description *)

Section Compose.
Import Publisher.

Lemma tag_text_has_hashtag (name : string) :
  str_contains ("#" +:+ name) (tag_text name) = true.
Proof.
  unfold tag_text. apply str_contains_app_r, str_contains_prefix.
  exact (prefix_app_self ("#" +:+ name) ("[话题]#" +:+ TOPIC_MARKER)).
Qed.

Lemma add_topic_has_hashtag (result : string) (topic : TopicInfo) :
  str_contains ("#" +:+ topic_name topic) (add_topic result topic) = true.
Proof.
  unfold add_topic.
  destruct (str_contains _ result) eqn:E; [done|].
  do 2 apply str_contains_app_r. apply tag_text_has_hashtag.
Qed.

Lemma add_topic_keeps (p result : string) (topic : TopicInfo) :
  str_contains p result = true → str_contains p (add_topic result topic) = true.
Proof.
  intros H. unfold add_topic.
  destruct (str_contains ("#" +:+ _) result); [done|]. by apply str_contains_app_l.
Qed.

Lemma fold_add_topic_keeps (p : string) (tps : list TopicInfo) (result : string) :
  str_contains p result = true →
  str_contains p (fold_left add_topic tps result) = true.
Proof.
  revert result; induction tps as [|t tps IH]; intros result H; simpl; [done|].
  by apply IH, add_topic_keeps.
Qed.

Lemma fold_add_topic_covers (tps : list TopicInfo) (result : string) (t : TopicInfo) :
  t ∈ tps →
  str_contains ("#" +:+ topic_name t) (fold_left add_topic tps result) = true.
Proof.
  revert result; induction tps as [|t' tps IH]; intros result Hin; simpl.
  - by apply elem_of_nil in Hin.
  - apply elem_of_cons in Hin as [->|Hin].
    + apply fold_add_topic_keeps, add_topic_has_hashtag.
    + by apply IH.
Qed.

Lemma fold_add_topic_fixed (tps : list TopicInfo) (result : string) :
  (∀ t, t ∈ tps → str_contains ("#" +:+ topic_name t) result = true) →
  fold_left add_topic tps result = result.
Proof.
  induction tps as [|t tps IH]; intros H; simpl; [done|].
  assert (add_topic result t = result) as ->.
  { unfold add_topic. rewrite H; [done | apply elem_of_cons; by left]. }
  apply IH. intros t' Ht'. apply H, elem_of_cons. by right.
Qed.

(** C2. For the description "hello" and one resolved topic named "coffee"
    the composed description is "hello", a blank and the marker-wrapped
    tag, and the wrapped tag occurs in it exactly once; for every
    description and every list of topics, composing the composed description
    again with the same topics gives it back unchanged. *)
Theorem C2_compose_once_and_idempotent :
  (∀ tid link ty : string,
     let coffee := mkTopicInfo tid "coffee" link ty in
     _build_desc_with_topics "hello" [coffee] = "hello " +:+ tag_text "coffee" ∧
     occurrences (tag_text "coffee") (_build_desc_with_topics "hello" [coffee]) = 1%nat ∧
     occurrences "coffee" (_build_desc_with_topics "hello" [coffee]) = 1%nat) ∧
  (∀ (d : string) (tps : list TopicInfo),
     _build_desc_with_topics (_build_desc_with_topics d tps) tps
     = _build_desc_with_topics d tps).
Proof.
  split.
  - intros tid link ty coffee. repeat split; vm_compute; reflexivity.
  - intros d tps. unfold _build_desc_with_topics.
    apply fold_add_topic_fixed. intros t Ht. by apply fold_add_topic_covers.
Qed.

End Compose.

(** ** tenacity: three attempts *)

Section RetryFacts.
Context {St In A : Type}.
Variable attempt : St → In → outcome A * St.
Variable world : nat → In.

Lemma retrying_step (more k : nat) (s0 : St) :
  retrying attempt world more k (state_before attempt world s0 k) =
  match outcome_at attempt world s0 k with
  | Return a => (Return a, state_before attempt world s0 (S k), S k)
  | Raise e =>
      match more with
      | O => (Raise (RetryError e), state_before attempt world s0 (S k), S k)
      | S more' =>
          retrying attempt world more' (S k) (state_before attempt world s0 (S k))
      end
  end.
Proof.
  unfold outcome_at. destruct more; simpl;
    destruct (attempt (state_before attempt world s0 k) (world k)) as [[a|e] s']; done.
Qed.

(** A call under [stop_after_attempt(3)] returns the value of the first of
    at most three attempts that does not raise, and otherwise fails with the
    exception of the third. *)
Lemma retry3_cases (s0 : St) :
  retry_stop_after_attempt attempt world 3 s0 =
  match outcome_at attempt world s0 0 with
  | Return a => (Return a, state_before attempt world s0 1, 1%nat)
  | Raise _ =>
      match outcome_at attempt world s0 1 with
      | Return a => (Return a, state_before attempt world s0 2, 2%nat)
      | Raise _ =>
          match outcome_at attempt world s0 2 with
          | Return a => (Return a, state_before attempt world s0 3, 3%nat)
          | Raise e => (Raise (RetryError e), state_before attempt world s0 3, 3%nat)
          end
      end
  end.
Proof.
  unfold retry_stop_after_attempt.
  etrans; [exact (retrying_step 2 0 s0)|].
  destruct (outcome_at attempt world s0 0); [done|].
  rewrite retrying_step. destruct (outcome_at attempt world s0 1); [done|].
  rewrite retrying_step. destruct (outcome_at attempt world s0 2); done.
Qed.

End RetryFacts.

(** ** Publisher: the credential check comes before any upload *)

Section Uploads.
Import Publisher.

Lemma upload_images_short_permit (w : World) (image_paths : list string) (permit : Permit) :
  image_paths ≠ [] →
  get_upload_permit w (length image_paths) = Return permit →
  (length (file_ids permit) < length image_paths)%nat →
  upload_images w image_paths =
    (Raise (InsufficientCredentialError (length (file_ids permit)) (length image_paths)),
     [EvPermit (length image_paths)]).
Proof.
  intros Hne Hpermit Hshort. unfold upload_images.
  destruct image_paths as [|path rest]; [done|].
  rewrite Hpermit.
  destruct (Nat.ltb_spec (length (file_ids permit)) (length (path :: rest))); [done|lia].
Qed.

(** C1. When uploads are requested for a non-empty list of assets and the
    credential step returns fewer file_ids than there are assets,
    [upload_images] and with it the publish run fail with
    InsufficientCredentialError, and the only call issued is the credential
    request: no PUT is sent for any asset. *)
Theorem C1_short_permit_no_upload
    (w : World) (content : NoteContent) (permit : Permit) :
  images content ≠ [] →
  get_upload_permit w (length (images content)) = Return permit →
  (length (file_ids permit) < length (images content))%nat →
  let failure :=
    InsufficientCredentialError (length (file_ids permit)) (length (images content)) in
  fst (upload_images w (images content)) = Raise failure ∧
  filter is_put (snd (upload_images w (images content))) = [] ∧
  fst (publish_note w content) = Raise failure ∧
  snd (publish_note w content) = [EvPermit (length (images content))] ∧
  filter is_put (snd (publish_note w content)) = [].
Proof.
  intros Hne Hpermit Hshort failure.
  pose proof (upload_images_short_permit w _ permit Hne Hpermit Hshort) as Hup.
  unfold publish_note. rewrite Hup. done.
Qed.

Lemma C1_short_permit_no_upload_witness :
  fst (publish_note world_one_slot (mkNoteContent "t" "d" ["a.jpg"; "b.jpg"] []))
    = Raise (InsufficientCredentialError 1 2) ∧
  filter is_put (snd (publish_note world_one_slot
                        (mkNoteContent "t" "d" ["a.jpg"; "b.jpg"] []))) = [].
Proof.
  pose proof (C1_short_permit_no_upload world_one_slot
                (mkNoteContent "t" "d" ["a.jpg"; "b.jpg"] [])
                (mkPermit ["slot-1"] "token")) as H.
  simpl in H.
  destruct H as (_ & _ & Hfail & _ & Hput); [discriminate | reflexivity | lia |].
  split; [exact Hfail | exact Hput].
Defined.

End Uploads.

(** ** Publisher: classifying a response *)

Section Classify.
Import Publisher.

Lemma request_cases (replies : nat → outcome Response) :
  _request replies =
  match _request_attempt (replies 0%nat) with
  | Return v => (Return v, 1%nat)
  | Raise _ =>
      match _request_attempt (replies 1%nat) with
      | Return v => (Return v, 2%nat)
      | Raise _ =>
          match _request_attempt (replies 2%nat) with
          | Return v => (Return v, 3%nat)
          | Raise e => (Raise (RetryError e), 3%nat)
          end
      end
  end.
Proof.
  unfold _request. rewrite retry3_cases. unfold outcome_at. simpl.
  destruct (_request_attempt (replies 0%nat)); [done|].
  destruct (_request_attempt (replies 1%nat)); [done|].
  destruct (_request_attempt (replies 2%nat)); done.
Qed.






End Classify.

(** ** Proxy pool: what one attempt and one call do to the pool *)

Section Pool.
Import Proxy_ip_pool.

Lemma list_remove_first_sublist `{EqDecision A} (x : A) (l : list A) :
  list_remove_first x l `sublist_of` l.
Proof.
  induction l as [|y l IH]; simpl; [constructor|].
  destruct (decide (y = x)); [by apply sublist_cons | by apply sublist_skip].
Qed.

Lemma list_remove_first_gone `{EqDecision A} (x : A) (l : list A) :
  NoDup l → x ∉ list_remove_first x l.
Proof.
  induction l as [|y l IH]; simpl; intros Hnd.
  - apply not_elem_of_nil.
  - apply NoDup_cons in Hnd as [Hy Hnd].
    destruct (decide (y = x)) as [->|Hne]; [done|].
    rewrite not_elem_of_cons. split; [congruence | by apply IH].
Qed.

Lemma list_remove_elem `{EqDecision A} (x : A) (l : list A) :
  x ∈ l → list_remove x l = Return (list_remove_first x l).
Proof. intros Hin. unfold list_remove. by rewrite decide_True. Qed.

Lemma random_choice_elem {A} (l : list A) (draw : nat) (x : A) :
  random_choice l draw = Return x → x ∈ l.
Proof.
  unfold random_choice. destruct (l !! _) eqn:E; [|done].
  intros [= <-]. by eapply list_elem_of_lookup_2.
Qed.

Lemma quiet_app (l k : list event) : quiet (l ++ k) = quiet l && quiet k.
Proof. apply forallb_app. Qed.

(** One attempt extends the log; if it did not ask the provider, the pool
    it leaves is what is left of the old one, and the endpoint it returns was
    in the pool and is no longer. *)
Lemma attempt_log (st : pool_state) (w : Attempt) :
  ∃ evs,
    snd (snd (get_proxy_attempt st w)) = snd st ++ evs ∧
    (quiet evs = true →
       proxy_list (fst (snd (get_proxy_attempt st w))) `sublist_of` proxy_list (fst st) ∧
       ∀ p, fst (get_proxy_attempt st w) = Return p →
            p ∈ proxy_list (fst st) ∧
            (NoDup (proxy_list (fst st)) →
               p ∉ proxy_list (fst (snd (get_proxy_attempt st w))))).
Proof.
  destruct st as [pool log]. unfold get_proxy_attempt.
  destruct (decide (length (proxy_list pool) = 0%nat)) as [Hempty|Hfull].
  - unfold _reload_proxies, load_proxies.
    destruct (provider_get_proxy w) as [l|e]; simpl.
    + destruct (random_choice l (random_draw w)) as [p|e] eqn:Hc; simpl.
      * rewrite (list_remove_elem _ _ (random_choice_elem _ _ _ Hc)).
        destruct (enable_validate_ip pool); simpl;
          [destruct (_is_valid_proxy (probe w)) as [[|]|]; simpl|];
          rewrite <- ?(assoc_L (++)); eexists; (split; [reflexivity | simpl; done]).
      * eexists; split; [reflexivity | simpl; done].
    + eexists; split; [reflexivity | simpl; done].
  - destruct (random_choice (proxy_list pool) (random_draw w)) as [p|e] eqn:Hc; simpl.
    + assert (Hin : p ∈ proxy_list pool) by by eapply random_choice_elem.
      rewrite (list_remove_elem _ _ Hin).
      pose proof (list_remove_first_sublist p (proxy_list pool)) as Hsub.
      pose proof (list_remove_first_gone p (proxy_list pool)) as Hgone.
      destruct (enable_validate_ip pool); simpl;
        [destruct (_is_valid_proxy (probe w)) as [[|]|]; simpl|].
      * exists [EvProbe p]. split; [done|]. intros _. split; [done|].
        intros q [= <-]. done.
      * exists [EvProbe p]. split; [done|]. intros _. split; [done|]. intros q [=].
      * exists [EvProbe p]. split; [done|]. intros _. split; [done|]. intros q [=].
      * exists []. rewrite app_nil_r. split; [done|]. intros _. split; [done|].
        intros q [= <-]. done.
    + exists []. rewrite app_nil_r. split; [done|]. intros _. split; [done|]. intros q [=].
Qed.

(** The endpoint an attempt returns is taken out of the list it was chosen
    from, the old pool or the freshly loaded one. *)
Lemma attempt_removes_issued (pool : ProxyIpPool) (log : list event) (w : Attempt)
    (p : IpInfoModel) :
  NoDup (proxy_list pool) →
  (∀ l, provider_get_proxy w = Return l → NoDup l) →
  fst (get_proxy_attempt (pool, log) w) = Return p →
  p ∉ proxy_list (fst (snd (get_proxy_attempt (pool, log) w))).
Proof.
  intros Hnd Hprov. unfold get_proxy_attempt.
  destruct (decide (length (proxy_list pool) = 0%nat)) as [Hempty|Hfull].
  - unfold _reload_proxies, load_proxies.
    destruct (provider_get_proxy w) as [l|e]; simpl; [|done].
    specialize (Hprov l eq_refl).
    destruct (random_choice l (random_draw w)) as [q|e] eqn:Hc; simpl; [|done].
    rewrite (list_remove_elem _ _ (random_choice_elem _ _ _ Hc)).
    pose proof (list_remove_first_gone q l Hprov) as Hgone.
    destruct (enable_validate_ip pool); simpl;
      [destruct (_is_valid_proxy (probe w)) as [[|]|]; simpl|];
      try done; by intros [= <-].
  - destruct (random_choice (proxy_list pool) (random_draw w)) as [q|e] eqn:Hc;
      simpl; [|done].
    rewrite (list_remove_elem _ _ (random_choice_elem _ _ _ Hc)).
    pose proof (list_remove_first_gone q (proxy_list pool) Hnd) as Hgone.
    destruct (enable_validate_ip pool); simpl;
      [destruct (_is_valid_proxy (probe w)) as [[|]|]; simpl|];
      try done; by intros [= <-].
Qed.

Section Call.
Variable pool : ProxyIpPool.
Variable world : nat → Attempt.
Local Abbreviation before := (before pool world).

Lemma before_quiet (n : nat) :
  quiet (snd (before n)) = true →
  ∀ k, (k ≤ n)%nat →
    quiet (snd (before k)) = true ∧
    proxy_list (fst (before n)) `sublist_of` proxy_list (fst (before k)).
Proof.
  induction n as [|n IH]; intros Hq k Hk.
  - assert (k = 0%nat) as -> by lia. done.
  - destruct (attempt_log (before n) (world n)) as (evs & Hlog & Hstep).
    unfold before in *. simpl in Hq |- *. rewrite Hlog, quiet_app in Hq.
    apply andb_true_iff in Hq as [Hqn Hqe].
    destruct (Hstep Hqe) as [Hsub _].
    destruct (decide (k = S n)) as [->|Hne].
    + simpl. rewrite Hlog, quiet_app, Hqn, Hqe. done.
    + destruct (IH Hqn k ltac:(lia)) as [Hqk Hsubk].
      split; [done|]. by etrans.
Qed.

Lemma get_proxy_result :
  get_proxy pool world =
  let '(r, st, n) := retry_stop_after_attempt get_proxy_attempt world 3 (pool, []) in
  (r, fst st, snd st, n).
Proof.
  unfold get_proxy.
  destruct (retry_stop_after_attempt _ _ _ _) as [[r [pool' log]] n]. done.
Qed.

(** A call ends in the state after its last attempt, and a returned
    endpoint is the one that attempt returned. *)
Lemma get_proxy_ends :
  ∃ n, (1 ≤ n ≤ 3)%nat ∧
    snd (get_proxy pool world) = n ∧
    snd (fst (get_proxy pool world)) = snd (before n) ∧
    snd (fst (fst (get_proxy pool world))) = fst (before n) ∧
    match fst (fst (fst (get_proxy pool world))) with
    | Return p =>
        outcome_at get_proxy_attempt world (pool, []) (Nat.pred n) = Return p
    | Raise e =>
        n = 3%nat ∧
        (∃ last, e = RetryError last ∧
                 outcome_at get_proxy_attempt world (pool, []) 2 = Raise last) ∧
        ∀ k, (k < 3)%nat →
          raised (outcome_at get_proxy_attempt world (pool, []) k) = true
    end.
Proof.
  rewrite get_proxy_result, retry3_cases. unfold before.
  destruct (outcome_at get_proxy_attempt world (pool, []) 0) eqn:E0.
  { exists 1%nat. simpl. repeat split; (lia || done). }
  destruct (outcome_at get_proxy_attempt world (pool, []) 1) eqn:E1.
  { exists 2%nat. simpl. repeat split; (lia || done). }
  destruct (outcome_at get_proxy_attempt world (pool, []) 2) eqn:E2.
  { exists 3%nat. simpl. repeat split; (lia || done). }
  exists 3%nat. simpl. repeat split; try (lia || done); [by eexists|].
  intros k Hk. destruct k as [|[|[|k]]]; [by rewrite E0|by rewrite E1|by rewrite E2|lia].
Qed.

(** A call that did not ask the provider leaves a part of the pool it
    found; the endpoint it returns was in that pool and, if the pool held no
    endpoint twice, is not in what is left. *)
Lemma get_proxy_quiet :
  quiet (snd (fst (get_proxy pool world))) = true →
  proxy_list (snd (fst (fst (get_proxy pool world)))) `sublist_of` proxy_list pool ∧
  ∀ p, fst (fst (fst (get_proxy pool world))) = Return p →
       p ∈ proxy_list pool ∧
       (NoDup (proxy_list pool) →
          p ∉ proxy_list (snd (fst (fst (get_proxy pool world))))).
Proof.
  destruct get_proxy_ends as (n & Hn & _ & Hlog & Hpool & Hres).
  rewrite Hlog, Hpool. intros Hq.
  pose proof (before_quiet n Hq) as Hbefore.
  split; [apply (Hbefore 0%nat); lia|].
  intros p Hp. rewrite Hp in Hres.
  destruct n as [|k]; [lia|]. simpl in Hres.
  destruct (Hbefore k ltac:(lia)) as [Hqk _].
  destruct (Hbefore 0%nat ltac:(lia)) as [_ Hsub0].
  destruct (attempt_log (before k) (world k)) as (evs & Hlogk & Hstep).
  assert (Hqe : quiet evs = true).
  { unfold before in *. simpl in Hq. rewrite Hlogk, quiet_app in Hq.
    by apply andb_true_iff in Hq as [_ ?]. }
  destruct (Hstep Hqe) as [_ Hret]. destruct (Hret p Hres) as [Hin Hgone].
  assert (Hsubk : proxy_list (fst (before k)) `sublist_of` proxy_list pool).
  { destruct k as [|j]; [done|].
    destruct (before_quiet (S j) Hqk 0%nat ltac:(lia)) as [_ ?]. done. }
  split; [by eapply elem_of_sublist|].
  intros Hnd. apply Hgone. by eapply sublist_NoDup.
Qed.

End Call.
(** A run of calls none of which asked the provider: what was handed out
    was in the pool at the start, is no longer, and was handed out once. *)
Lemma get_proxy_calls_quiet (worlds : list (nat → Attempt)) (pool : ProxyIpPool) :
  NoDup (proxy_list pool) →
  no_load (fst (get_proxy_calls pool worlds)) = true →
  proxy_list (snd (get_proxy_calls pool worlds)) `sublist_of` proxy_list pool ∧
  NoDup (issued (fst (get_proxy_calls pool worlds))) ∧
  ∀ p, p ∈ issued (fst (get_proxy_calls pool worlds)) →
       p ∈ proxy_list pool ∧ p ∉ proxy_list (snd (get_proxy_calls pool worlds)).
Proof.
  revert pool; induction worlds as [|world rest IH]; intros pool Hnd; simpl.
  - intros _. split; [done|]. split; [constructor|]. intros p Hp.
    by apply elem_of_nil in Hp.
  - pose proof (get_proxy_quiet pool world) as Hcall.
    destruct (get_proxy pool world) as [[[r pool'] log] n]; simpl in Hcall.
    specialize (IH pool').
    destruct (get_proxy_calls pool' rest) as [rs pool'']; simpl in *.
    intros Hq. apply andb_true_iff in Hq as [Hqlog Hqrest].
    destruct (Hcall Hqlog) as [Hsub Hret].
    assert (Hnd' : NoDup (proxy_list pool')) by by eapply sublist_NoDup.
    destruct (IH Hnd' Hqrest) as (Hsub' & Hnd_rs & Hrs).
    split; [by etrans|].
    destruct r as [p|e]; simpl.
    + destruct (Hret p eq_refl) as [Hin Hgone]. specialize (Hgone Hnd).
      split.
      * apply NoDup_cons. split; [|done]. intros Hp. by apply Hrs in Hp as [? _].
      * intros q Hq. apply elem_of_cons in Hq as [->|Hq].
        -- split; [done|]. intros Hp. apply Hgone. by eapply elem_of_sublist.
        -- destruct (Hrs q Hq) as [Hq' Hq'']. split; [by eapply elem_of_sublist | done].
    + split; [done|]. intros q Hq. destruct (Hrs q Hq) as [Hq' Hq''].
      split; [by eapply elem_of_sublist | done].
Qed.

(** C4, as the code has it. After a [load()] that delivered pairwise
    distinct endpoints, the endpoint an attempt returns is taken out of the
    in-memory pool by that attempt, an endpoint returned by a call that did
    not reload is one of the loaded ones and is no longer in the pool, and
    in any run of calls without a reload no endpoint is returned twice and
    none of the returned endpoints is left in the pool. *)
Theorem C4_unique_until_reload
    (pool0 : ProxyIpPool) (l : list IpInfoModel) (worlds : list (nat → Attempt)) :
  NoDup l →
  (∀ log w p,
     (∀ l', provider_get_proxy w = Return l' → NoDup l') →
     fst (get_proxy_attempt (loaded pool0 l, log) w) = Return p →
     p ∉ proxy_list (fst (snd (get_proxy_attempt (loaded pool0 l, log) w)))) ∧
  (∀ world p,
     fst (fst (fst (get_proxy (loaded pool0 l) world))) = Return p →
     quiet (snd (fst (get_proxy (loaded pool0 l) world))) = true →
     p ∈ l ∧ p ∉ proxy_list (snd (fst (fst (get_proxy (loaded pool0 l) world))))) ∧
  (no_load (fst (get_proxy_calls (loaded pool0 l) worlds)) = true →
   NoDup (issued (fst (get_proxy_calls (loaded pool0 l) worlds))) ∧
   ∀ p, p ∈ issued (fst (get_proxy_calls (loaded pool0 l) worlds)) →
        p ∈ l ∧ p ∉ proxy_list (snd (get_proxy_calls (loaded pool0 l) worlds))).
Proof.
  intros Hnd. split; [|split].
  - intros log w p Hprov. by apply attempt_removes_issued.
  - intros world p Hp Hq.
    destruct (get_proxy_quiet (loaded pool0 l) world Hq) as [_ Hret].
    destruct (Hret p Hp) as [Hin Hgone]. split; [done | by apply Hgone].
  - intros Hq.
    destruct (get_proxy_calls_quiet worlds (loaded pool0 l) Hnd Hq) as (_ & ? & ?).
    done.
Qed.

Lemma C4_unique_until_reload_witness :
  NoDup (issued (fst (get_proxy_calls (loaded (fresh_pool false) [endpoint_a; endpoint_b])
                        [fun _ => answer 200; fun _ => answer 200]))) ∧
  issued (fst (get_proxy_calls (loaded (fresh_pool false) [endpoint_a; endpoint_b])
                 [fun _ => answer 200; fun _ => answer 200]))
    = [endpoint_a; endpoint_b].
Proof.
  assert (Hnd : NoDup [endpoint_a; endpoint_b]).
  { apply NoDup_cons. split; [|apply NoDup_singleton].
    intros H. apply list_elem_of_singleton in H. discriminate. }
  destruct (C4_unique_until_reload (fresh_pool false) [endpoint_a; endpoint_b]
              [fun _ => answer 200; fun _ => answer 200] Hnd) as (_ & _ & H).
  split; [apply H; reflexivity | reflexivity].
Defined.

(** C4, as stated, fails: after a [load()] that delivered the same
    endpoint twice, two successive calls return that endpoint, and neither
    of them reloads. *)
Lemma C4_counterexample :
  let pool := loaded (fresh_pool false) [endpoint_a; endpoint_a] in
  let run := get_proxy_calls pool [fun _ => answer 200; fun _ => answer 200] in
  proxy_list pool = [endpoint_a; endpoint_a] ∧
  fst run = [(Return endpoint_a, []); (Return endpoint_a, [])] ∧
  no_load (fst run) = true ∧
  issued (fst run) = [endpoint_a; endpoint_a].
Proof. repeat split; reflexivity. Qed.

(** ** Proxy pool: a failed probe and the retry *)





(** ** Proxy pool: a provider without endpoints *)

Lemma attempt_on_empty (pool : ProxyIpPool) (log : list event) (w : Attempt) :
  proxy_list pool = [] →
  provider_get_proxy w = Return [] →
  get_proxy_attempt (pool, log) w =
    (Raise IndexError, (set_proxy_list pool [], log ++ [EvLoad (ip_pool_count pool)])).
Proof.
  intros Hempty Hprov. unfold get_proxy_attempt, _reload_proxies, load_proxies.
  rewrite Hempty, Hprov. simpl. done.
Qed.

(** C9, as the code has it. When the in-memory pool is empty and the
    provider returns an empty list, the body of [get_proxy] reloads, chooses
    from the empty list without a guard and raises IndexError; the call
    repeats this on each of its three attempts, so the provider is asked
    three times, and then fails with RetryError holding that IndexError as
    the error of its last attempt; neither the error of the attempts nor the
    one the call ends with is ProviderError or InvalidProxyError. *)
Theorem C9_empty_provider_index_error (pool : ProxyIpPool) (world : nat → Attempt) :
  proxy_list pool = [] →
  (∀ k, provider_get_proxy (world k) = Return []) →
  (∀ log k,
     get_proxy_attempt (pool, log) (world k) =
       (Raise IndexError, (set_proxy_list pool [], log ++ [EvLoad (ip_pool_count pool)]))) ∧
  get_proxy pool world =
    (Raise (RetryError IndexError),
     set_proxy_list pool [],
     [EvLoad (ip_pool_count pool); EvLoad (ip_pool_count pool); EvLoad (ip_pool_count pool)],
     3%nat) ∧
  IndexError ≠ ProviderError ∧ IndexError ≠ InvalidProxyError ∧
  RetryError IndexError ≠ ProviderError ∧ RetryError IndexError ≠ InvalidProxyError.
Proof.
  intros Hempty Hprov. split; [|split; [|done]].
  - intros log k. by apply attempt_on_empty.
  - assert (Hstep : ∀ log k,
      get_proxy_attempt (set_proxy_list pool [], log) (world k) =
        (Raise IndexError, (set_proxy_list pool [], log ++ [EvLoad (ip_pool_count pool)]))).
    { intros log k. by apply (attempt_on_empty (set_proxy_list pool [])). }
    rewrite get_proxy_result, retry3_cases. unfold outcome_at.
    cbn [state_before].
    rewrite (attempt_on_empty pool [] (world 0%nat) Hempty (Hprov 0%nat)).
    cbn [fst snd]. rewrite Hstep. cbn [fst snd]. rewrite Hstep. done.
Qed.

Lemma C9_empty_provider_index_error_witness :
  get_proxy (fresh_pool true) empty_world =
    (Raise (RetryError IndexError), fresh_pool true, [EvLoad 2; EvLoad 2; EvLoad 2], 3%nat).
Proof.
  destruct (C9_empty_provider_index_error (fresh_pool true) empty_world) as (_ & H & _);
    [reflexivity | reflexivity | exact H].
Defined.

(** C9, as stated, fails: with an empty pool and a provider that returns
    the empty list, the call does not end with IndexError after one reload;
    it asks the provider three times and ends with RetryError. *)
Lemma C9_counterexample :
  let call := get_proxy (fresh_pool false) empty_world in
  proxy_list (fresh_pool false) = [] ∧
  (∀ k, provider_get_proxy (empty_world k) = Return []) ∧
  fst (fst (fst call)) = Raise (RetryError IndexError) ∧
  fst (fst (fst call)) ≠ Raise IndexError ∧
  filter is_load (snd (fst call)) = [EvLoad 2; EvLoad 2; EvLoad 2] ∧
  snd call = 3%nat.
Proof. repeat split; try reflexivity. discriminate. Qed.

End Pool.

(** ** Human behaviour: session breaks *)

Section Breaks.
Import Human_behavior.

Lemma record_actions_until_break (cfg : Config) (front : list Q) (u : Q)
    (self : HumanBehavior) :
  enabled self = true →
  (0 ≤ action_count self)%Z →
  (action_count self + Z.of_nat (length (front ++ [u])) = break_interval self)%Z →
  record_actions cfg self (front ++ [u]) =
    (mkHumanBehavior true 0 (break_interval self),
     replicate (length front) None ++
     [Some (uniform (SESSION_BREAK_MIN_SEC cfg) (SESSION_BREAK_MAX_SEC cfg) u)]).
Proof.
  revert self; induction front as [|v rest IH]; intros self Hen Hpos Hsum.
  - simpl in *. unfold check_and_take_break. rewrite Hen. simpl.
    destruct (Z.leb_spec (break_interval self) (action_count self + 1)); [|lia].
    unfold session_break_delay. done.
  - rewrite length_app in Hsum. simpl in *. unfold check_and_take_break at 1.
    rewrite Hen. simpl.
    destruct (Z.leb_spec (break_interval self) (action_count self + 1)); [lia|].
    rewrite (IH (mkHumanBehavior true (action_count self + 1) (break_interval self)));
      [done | done | simpl; lia | rewrite length_app; simpl; lia].
Qed.

(** C6. With the simulation enabled and the counter at 0,
    [break_interval] calls of [check_and_take_break] wait on the last call,
    and on no call before it, for a session break, whose length is drawn
    from the session-break interval with the draw of that call; they leave
    the counter at 0. *)
Theorem C6_break_on_last_call (cfg : Config) (self : HumanBehavior) (us : list Q) :
  enabled self = true →
  action_count self = 0%Z →
  (1 ≤ break_interval self)%Z →
  length us = Z.to_nat (break_interval self) →
  action_count (fst (record_actions cfg self us)) = 0%Z ∧
  ∃ u, last us = Some u ∧
       snd (record_actions cfg self us) =
         replicate (length us - 1) None ++
         [Some (uniform (SESSION_BREAK_MIN_SEC cfg) (SESSION_BREAK_MAX_SEC cfg) u)].
Proof.
  intros Hen Hzero Hpos Hlen.
  destruct (decide (us = [])) as [->|Hne]; [simpl in Hlen; lia|].
  destruct (exists_last Hne) as (front & u & ->).
  rewrite (record_actions_until_break cfg front u self); [|done|lia|lia].
  simpl. split; [done|]. exists u. split; [apply last_snoc|].
  rewrite length_app. simpl. by rewrite Nat.add_sub.
Qed.

Lemma C6_break_on_last_call_witness :
  action_count (fst (record_actions base_config
                       (mkHumanBehavior true 0 3) [0%Q; 0%Q; (1 # 2)%Q])) = 0%Z ∧
  ∃ u, last [0%Q; 0%Q; (1 # 2)%Q] = Some u ∧
       snd (record_actions base_config (mkHumanBehavior true 0 3) [0%Q; 0%Q; (1 # 2)%Q])
       = replicate 2 None ++ [Some (uniform 10 30 u)].
Proof.
  apply (C6_break_on_last_call base_config (mkHumanBehavior true 0 3)
           [0%Q; 0%Q; (1 # 2)%Q]);
    [reflexivity | reflexivity | simpl; lia | reflexivity].
Defined.

End Breaks.

(** ** Human behaviour: the delays stay in their intervals *)

Section Delays.
Import Human_behavior.
Open Scope Q_scope.

Lemma uniform_bounds (a b u : Q) :
  a <= b → 0 <= u → u < 1 → a <= uniform a b u ∧ uniform a b u <= b.
Proof. intros Hab H0 H1. unfold uniform. split; nra. Qed.

Lemma extra_time_bounds (content_length : Z) :
  (0 ≤ content_length)%Z →
  0 <= Qmin (inject_Z content_length / 2000) 2 ∧
  Qmin (inject_Z content_length / 2000) 2 <= 2.
Proof.
  intros Hn. split; [|apply Q.le_min_r].
  apply Q.min_glb; [|lra].
  assert (inject_Z 0 <= inject_Z content_length) by (by rewrite <- Zle_Qle).
  unfold Qdiv. apply Qmult_le_0_compat; [done|]. by vm_compute.
Qed.

(** C7. With the simulation enabled, the delay of every category lies in
    the interval configured for it, and the page-view delay, which adds
    min(content_length / 2000, 2) seconds of reading time, lies between the
    lower bound and the upper bound plus that extra; with the simulation
    disabled every category waits for the one fixed fallback delay. *)
Theorem C7_delay_within_interval
    (cfg : Config) (self : HumanBehavior) (c : category) (u : Q) :
  0 <= u → u < 1 →
  fst (interval cfg c) <= snd (interval cfg c) →
  match c with PageView content_length => (0 ≤ content_length)%Z | _ => True end →
  (enabled self = false → delay cfg self c u = CRAWLER_MAX_SLEEP_SEC cfg) ∧
  (enabled self = true →
     fst (interval cfg c) <= delay cfg self c u ∧
     delay cfg self c u <= snd (interval cfg c) + extra c ∧
     match c with
     | PageView content_length =>
         delay cfg self c u
           = uniform (PAGE_VIEW_MIN_SEC cfg) (PAGE_VIEW_MAX_SEC cfg) u
             + Qmin (inject_Z content_length / 2000) 2 ∧
         extra c <= 2
     | _ => delay cfg self c u <= snd (interval cfg c)
     end).
Proof.
  intros H0 H1 Hint Hlen. split.
  - intros Hoff.
    destruct c; simpl;
      unfold random_delay, page_view_delay, action_delay, comment_crawl_delay,
             session_break_delay; by rewrite Hoff.
  - intros Hon.
    destruct c as [lo hi|n| | |]; simpl in *;
      unfold random_delay, page_view_delay, action_delay, comment_crawl_delay,
             session_break_delay; rewrite Hon; simpl;
      try (destruct (uniform_bounds _ _ u Hint H0 H1) as [Hlo Hhi];
           repeat split; (done || lra)).
    destruct (uniform_bounds _ _ u Hint H0 H1) as [Hlo Hhi].
    destruct (extra_time_bounds n Hlen) as [He0 He2].
    repeat split; (done || lra).
Qed.

Lemma C7_delay_within_interval_witness :
  2 <= delay base_config (init base_config) (PageView 1000) (1 # 2) ∧
  delay base_config (init base_config) (PageView 1000) (1 # 2) <= 5 + (1 # 2).
Proof.
  destruct (C7_delay_within_interval base_config (init base_config) (PageView 1000) (1 # 2))
    as [_ H]; [by vm_compute | by vm_compute | by vm_compute | simpl; lia |].
  destruct (H eq_refl) as (Hlo & Hhi & _).
  split; [exact Hlo|].
  eapply Qle_trans; [exact Hhi|]. by vm_compute.
Defined.

End Delays.

(** ** Browser launcher: cleanup *)

Section Cleanup.
Import Browser_launcher.

Lemma except_Exception_returns (body : outcome unit * list action) :
  fst (except_Exception body) = Return tt.
Proof. by destruct body as [[[]|e] tr]. Qed.

Lemma cleanup_returns (self : BrowserLauncher) (os : OS) :
  fst (fst (cleanup self os)) = Return tt ∧
  browser_process (snd (fst (cleanup self os))) = None.
Proof.
  unfold cleanup. destruct (browser_process self) as [process|] eqn:Hp; [|done].
  destruct (poll os); [done|].
  pose proof (except_Exception_returns
                (if decide (system self = "Windows") then stop_windows os process
                 else stop_posix os process)) as H.
  destruct (except_Exception _) as [r tr]. simpl in *. done.
Qed.

(** C8. [cleanup] never raises and leaves no process handle, whatever the
    operating system answers; a second [cleanup] right after it does
    nothing at all; on a launcher without a process it does nothing, and on a
    process that has already exited it only polls it and drops the handle. *)
Theorem C8_cleanup_twice_is_safe :
  (∀ self os,
     fst (fst (cleanup self os)) = Return tt ∧
     browser_process (snd (fst (cleanup self os))) = None) ∧
  (∀ self os os',
     cleanup (snd (fst (cleanup self os))) os'
       = (Return tt, snd (fst (cleanup self os)), [])) ∧
  (∀ sys port os,
     cleanup (mkBrowserLauncher sys None port) os
       = (Return tt, mkBrowserLauncher sys None port, [])) ∧
  (∀ sys process port code t w k f g kt kk,
     cleanup (mkBrowserLauncher sys (Some process) port) (mkOS (Some code) t w k f g kt kk)
       = (Return tt, mkBrowserLauncher sys None port, [Poll (pid process)])).
Proof.
  split; [exact cleanup_returns|]. split; [|split; done].
  intros self os os'. destruct (cleanup_returns self os) as [_ Hnone].
  unfold cleanup at 1. by rewrite Hnone.
Qed.

End Cleanup.

(** ** File writer: a target that does not decode *)

Section Writer.
Import Async_file_writer.





End Writer.

(** * Further properties of the modelled code *)

(** ** Publisher: the upload loop *)

Section UploadLoop.
Import Publisher.

Lemma upload_image_trace (w : World) (image_path fid tok : string) :
  snd (upload_image w image_path fid tok) = [] ∨
  snd (upload_image w image_path fid tok) = [EvPut fid image_path].
Proof.
  unfold upload_image. destruct (open_image w image_path) as [[wd ht]|e]; [|by left].
  destruct (put_image w fid tok image_path) as [r|e]; [|by right].
  destruct (raise_for_status r); by right.
Qed.

Lemma upload_image_failed_trace (w : World) (image_path fid tok : string) :
  snd (upload_image w image_path fid tok) = [] →
  raised (fst (upload_image w image_path fid tok)) = true.
Proof.
  unfold upload_image. destruct (open_image w image_path) as [[wd ht]|e]; [|done].
  destruct (put_image w fid tok image_path) as [r|e]; [|done].
  destruct (raise_for_status r); done.
Qed.

Lemma upload_each_prefix (w : World) (fids : list string) (tok : string)
    (image_paths : list string) (i : nat) (results : list ImageInfo) :
  snd (upload_each w fids tok i image_paths results)
    `prefix_of` all_puts (drop i fids) image_paths.
Proof.
  revert i results; induction image_paths as [|path rest IH]; intros i results; simpl.
  - apply prefix_nil.
  - destruct (fids !! i) as [fid|] eqn:Hfid; [|apply prefix_nil].
    rewrite (drop_S _ _ _ Hfid). unfold all_puts. simpl.
    pose proof (upload_image_trace w path fid tok) as Htr.
    pose proof (upload_image_failed_trace w path fid tok) as Hfail.
    destruct (upload_image w path fid tok) as [[info|e] tr]; simpl in *.
    + destruct Htr as [->| ->]; [by specialize (Hfail eq_refl)|].
      specialize (IH (S i) (results ++ [info])).
      destruct (upload_each w fids tok (S i) rest (results ++ [info])) as [r tr'].
      simpl in *. by apply prefix_cons.
    + destruct Htr as [->| ->]; [apply prefix_nil|].
      apply prefix_cons, prefix_nil.
Qed.

(** X1. Whatever the outside does, the PUT requests of a batch are an
    initial part of the sequence that pairs the i-th asset with the i-th
    slot of the permit: assets are sent in order, each at most once and to
    its own slot.  No PUT at all is sent when the permit request fails or
    when the permit holds fewer slots than there are assets. *)
Theorem X1_uploads_in_order (w : World) (image_paths : list string) :
  image_paths ≠ [] →
  ∃ puts,
    snd (upload_images w image_paths) = EvPermit (length image_paths) :: puts ∧
    match get_upload_permit w (length image_paths) with
    | Return permit =>
        puts `prefix_of` all_puts (file_ids permit) image_paths ∧
        ((length (file_ids permit) < length image_paths)%nat → puts = [])
    | Raise _ => puts = []
    end.
Proof.
  intros Hne. unfold upload_images. destruct image_paths as [|path rest]; [done|].
  destruct (get_upload_permit w (length (path :: rest))) as [permit|e]; [|by eexists].
  destruct (Nat.ltb_spec (length (file_ids permit)) (length (path :: rest))) as [Hlt|Hge].
  { eexists. split; [done|]. split; [apply prefix_nil | done]. }
  pose proof (upload_each_prefix w (file_ids permit) (token permit) (path :: rest) 0 [])
    as Hpre.
  destruct (upload_each w (file_ids permit) (token permit) 0 (path :: rest) [])
    as [r tr]. simpl in *. eexists. split; [done|]. split; [done|]. intros Hshort. lia.
Qed.

Lemma X1_uploads_in_order_witness :
  (∃ puts,
     snd (upload_images world_two_slots ["a.jpg"; "b.jpg"]) = EvPermit 2 :: puts ∧
     puts `prefix_of` [EvPut "slot-1" "a.jpg"; EvPut "slot-2" "b.jpg"]) ∧
  snd (upload_images world_one_slot ["a.jpg"; "b.jpg"]) = [EvPermit 2].
Proof.
  split.
  - destruct (X1_uploads_in_order world_two_slots ["a.jpg"; "b.jpg"])
      as (puts & Htr & Hpre & _); [discriminate|].
    exists puts. split; [exact Htr | exact Hpre].
  - destruct (X1_uploads_in_order world_one_slot ["a.jpg"; "b.jpg"])
      as (puts & Htr & _ & Hshort); [discriminate|].
    simpl in Hshort. rewrite (Hshort ltac:(lia)) in Htr. exact Htr.
Defined.




End UploadLoop.

(** ** Publisher: what the composed description keeps and drops *)

Section Description.
Import Publisher.

Lemma prefix_refl (s : string) : String.prefix s s = true.
Proof. induction s as [|a s IH]; simpl; [done|]. by destruct (ascii_dec a a). Qed.

Lemma prefix_trans (q p s : string) :
  String.prefix q p = true → String.prefix p s = true → String.prefix q s = true.
Proof.
  revert p s; induction q as [|a q IH]; intros p s Hqp Hps.
  - by destruct s.
  - destruct p as [|b p]; [done|]. destruct s as [|c s]; [done|]. simpl in *.
    destruct (ascii_dec a b) as [->|]; [|done].
    destruct (ascii_dec b c) as [->|]; [|done]. by eapply IH.
Qed.

Lemma str_contains_shorter (q p s : string) :
  String.prefix q p = true → str_contains p s = true → str_contains q s = true.
Proof.
  intros Hqp. induction s as [|a s IH]; cbn [str_contains]; intros H.
  - rewrite orb_false_r in H. by rewrite (prefix_trans q p EmptyString Hqp H).
  - apply orb_true_iff in H as [H|H]; apply orb_true_iff.
    + left. by eapply prefix_trans.
    + right. by apply IH.
Qed.

Lemma add_topic_extends (d result : string) (topic : TopicInfo) :
  String.prefix d result = true → String.prefix d (add_topic result topic) = true.
Proof.
  intros H. unfold add_topic.
  destruct (str_contains ("#" +:+ _) result); [done|]. by apply prefix_app_l.
Qed.

Lemma fold_add_topic_extends (d : string) (tps : list TopicInfo) (result : string) :
  String.prefix d result = true →
  String.prefix d (fold_left add_topic tps result) = true.
Proof.
  revert result; induction tps as [|t tps IH]; intros result H; simpl; [done|].
  by apply IH, add_topic_extends.
Qed.

(** X3. The composed description starts with the description it was given,
    so nothing the author wrote is removed or reordered, and it contains
    the hashtag of every resolved topic. *)
Theorem X3_description_kept_and_tagged (d : string) (tps : list TopicInfo) :
  String.prefix d (_build_desc_with_topics d tps) = true ∧
  ∀ t, t ∈ tps →
       str_contains ("#" +:+ topic_name t) (_build_desc_with_topics d tps) = true.
Proof.
  unfold _build_desc_with_topics. split.
  - apply fold_add_topic_extends, prefix_refl.
  - intros t Ht. by apply fold_add_topic_covers.
Qed.

Lemma X3_description_kept_and_tagged_witness :
  str_contains "#coffee"
    (_build_desc_with_topics "hello" [mkTopicInfo "t1" "coffee" "link" "topic"]) = true.
Proof.
  destruct (X3_description_kept_and_tagged "hello"
              [mkTopicInfo "t1" "coffee" "link" "topic"]) as [_ H].
  apply (H (mkTopicInfo "t1" "coffee" "link" "topic")). apply list_elem_of_singleton.
  reflexivity.
Defined.

(** X4. The test for a tag that is already there is a substring test on
    the hashtag: a topic whose name is the beginning of the name of a topic
    that precedes it in the list gets no tag of its own. *)
Theorem X4_prefix_named_topic_gets_no_tag
    (d : string) (tps : list TopicInfo) (t t' : TopicInfo) :
  t ∈ tps →
  String.prefix (topic_name t') (topic_name t) = true →
  _build_desc_with_topics d (tps ++ [t']) = _build_desc_with_topics d tps.
Proof.
  intros Ht Hpre. unfold _build_desc_with_topics.
  rewrite fold_left_app. simpl. unfold add_topic at 1.
  assert (str_contains ("#" +:+ topic_name t') (fold_left add_topic tps d) = true) as ->.
  { apply (str_contains_shorter _ ("#" +:+ topic_name t)).
    - simpl. by destruct (ascii_dec "#" "#").
    - by apply fold_add_topic_covers. }
  done.
Qed.

Lemma X4_prefix_named_topic_gets_no_tag_witness :
  _build_desc_with_topics "hello"
    [mkTopicInfo "t1" "coffee" "l1" "topic"; mkTopicInfo "t2" "cof" "l2" "topic"]
  = _build_desc_with_topics "hello" [mkTopicInfo "t1" "coffee" "l1" "topic"].
Proof.
  apply (X4_prefix_named_topic_gets_no_tag "hello"
           [mkTopicInfo "t1" "coffee" "l1" "topic"]
           (mkTopicInfo "t1" "coffee" "l1" "topic") (mkTopicInfo "t2" "cof" "l2" "topic")).
  - apply list_elem_of_singleton. reflexivity.
  - reflexivity.
Defined.

End Description.

(** ** Publisher: resolving topics and publishing *)

Section PublishRun.
Import Publisher.

Lemma resolve_topics_all (w : World) (keywords : list string) (found : list TopicInfo) :
  (∀ keyword, keyword ∈ keywords → raised (search_topic w keyword) = false) →
  resolve_topics w keywords found
    = (Return (found ++ omap (first_hit w) keywords), EvSearchTopic <$> keywords).
Proof.
  revert found; induction keywords as [|keyword rest IH]; intros found Hall; simpl.
  - by rewrite app_nil_r.
  - assert (Hk : raised (search_topic w keyword) = false).
    { apply Hall, elem_of_cons. by left. }
    unfold first_hit at 1.
    destruct (search_topic w keyword) as [[|first hits]|e]; [| |done].
    + rewrite IH; [done|]. intros k Hin. apply Hall, elem_of_cons. by right.
    + rewrite IH; [|intros k Hin; apply Hall, elem_of_cons; by right].
      by rewrite <- (assoc_L (++)).
Qed.

(** X5. When every search returns, the topics of a publish run are the
    first hits of the keywords that have one, in the order of the keywords;
    keywords without a hit are left out, so there are never more topics than
    keywords, and exactly one search is made per keyword, in order. *)
Theorem X5_topics_are_first_hits (w : World) (keywords : list string) :
  (∀ keyword, keyword ∈ keywords → raised (search_topic w keyword) = false) →
  resolve_topics w keywords []
    = (Return (omap (first_hit w) keywords), EvSearchTopic <$> keywords) ∧
  (length (omap (first_hit w) keywords) ≤ length keywords)%nat.
Proof.
  intros Hall. split; [by rewrite resolve_topics_all|].
  clear Hall. induction keywords as [|k rest IH]; csimpl; [done|].
  destruct (first_hit w k); csimpl; lia.
Qed.

Lemma X5_topics_are_first_hits_witness :
  fst (resolve_topics world_two_slots ["tea"; "coffee"] [])
    = Return [mkTopicInfo "t1" "coffee" "link" "topic"].
Proof.
  destruct (X5_topics_are_first_hits world_two_slots ["tea"; "coffee"]) as [H _].
  - intros keyword _. simpl. by destruct (decide (keyword = "coffee")).
  - rewrite H. reflexivity.
Defined.

(** X6. A search that fails ends the loop: the error is the one of the
    first failing keyword, and no search is made for the keywords after it. *)
Theorem X6_failed_search_stops_the_loop
    (w : World) (done_before : list string) (keyword : string) (after : list string)
    (found : list TopicInfo) (e : exn) :
  (∀ k, k ∈ done_before → raised (search_topic w k) = false) →
  search_topic w keyword = Raise e →
  resolve_topics w (done_before ++ keyword :: after) found
    = (Raise e, EvSearchTopic <$> (done_before ++ [keyword])).
Proof.
  revert found; induction done_before as [|k rest IH]; intros found Hall Hfail; simpl.
  - by rewrite Hfail.
  - assert (Hk : raised (search_topic w k) = false).
    { apply Hall, elem_of_cons. by left. }
    destruct (search_topic w k) as [hits|e']; [|done].
    rewrite IH; [done| |done]. intros k' Hin. apply Hall, elem_of_cons. by right.
Qed.

Lemma X6_failed_search_stops_the_loop_witness :
  resolve_topics world_search_down ["tea"; "coffee"; "milk"] []
    = (Raise TransportError, [EvSearchTopic "tea"; EvSearchTopic "coffee"]).
Proof.
  apply (X6_failed_search_stops_the_loop world_search_down ["tea"] "coffee" ["milk"]).
  - intros k Hk. apply list_elem_of_singleton in Hk as ->. reflexivity.
  - reflexivity.
Defined.

End PublishRun.

(** ** Publisher: the note is posted last, and once *)

Section PublishOrder.
Import Publisher.

Lemma upload_each_no_publish (w : World) (fids : list string) (tok : string)
    (image_paths : list string) (i : nat) (results : list ImageInfo) :
  filter is_publish (snd (upload_each w fids tok i image_paths results)) = [].
Proof.
  revert i results; induction image_paths as [|path rest IH]; intros i results; simpl.
  - done.
  - destruct (fids !! i) as [fid|]; [|done].
    pose proof (upload_image_trace w path fid tok) as Htr.
    destruct (upload_image w path fid tok) as [[info|e] tr]; simpl in *.
    + specialize (IH (S i) (results ++ [info])).
      destruct (upload_each w fids tok (S i) rest (results ++ [info])) as [r tr'].
      simpl in *. rewrite filter_app, IH.
      destruct Htr as [->| ->]; done.
    + destruct Htr as [->| ->]; done.
Qed.

Lemma upload_images_no_publish (w : World) (image_paths : list string) :
  filter is_publish (snd (upload_images w image_paths)) = [].
Proof.
  unfold upload_images. destruct image_paths as [|path rest]; [done|].
  destruct (get_upload_permit w (length (path :: rest))) as [permit|e]; [|done].
  destruct (length (file_ids permit) <? length (path :: rest))%nat; [done|].
  pose proof (upload_each_no_publish w (file_ids permit) (token permit) (path :: rest) 0 [])
    as H.
  destruct (upload_each w (file_ids permit) (token permit) 0 (path :: rest) []) as [r tr].
  done.
Qed.

Lemma resolve_topics_no_publish (w : World) (keywords : list string)
    (found : list TopicInfo) :
  filter is_publish (snd (resolve_topics w keywords found)) = [].
Proof.
  revert found; induction keywords as [|keyword rest IH]; intros found; simpl; [done|].
  destruct (search_topic w keyword) as [hits|e]; [|done].
  match goal with |- context [resolve_topics w rest ?f] =>
    specialize (IH f); destruct (resolve_topics w rest f) as [r tr] end.
  done.
Qed.

(** X7. [publish_note] comes to its note request (signing, then the
    [_request] call for the note) at most once in a run, and only after the
    uploads and the topic searches have all returned: that call is then the
    last step of the run and carries the description composed from the
    resolved topics.  (The call itself sends the POST once per attempt of
    [_request], so up to three times.) *)
Theorem X7_note_request_last_and_once (w : World) (content : NoteContent) :
  filter is_publish (snd (publish_note w content)) = [] ∨
  ∃ imgs tps tr1 tr2,
    upload_images w (images content) = (Return imgs, tr1) ∧
    resolve_topics w (topics content) [] = (Return tps, tr2) ∧
    snd (publish_note w content)
      = tr1 ++ tr2 ++ [EvPublish (_build_desc_with_topics (desc content) tps)] ∧
    filter is_publish (snd (publish_note w content))
      = [EvPublish (_build_desc_with_topics (desc content) tps)].
Proof.
  unfold publish_note.
  pose proof (upload_images_no_publish w (images content)) as Hup.
  destruct (upload_images w (images content)) as [[imgs|e] tr1]; [|by left].
  pose proof (resolve_topics_no_publish w (topics content) []) as Hres.
  destruct (resolve_topics w (topics content) []) as [[tps|e] tr2].
  - right. exists imgs, tps, tr1, tr2. simpl in *.
    assert (Hf : filter is_publish
                   (tr1 ++ tr2 ++ [EvPublish (_build_desc_with_topics (desc content) tps)])
                 = [EvPublish (_build_desc_with_topics (desc content) tps)]).
    { by rewrite !filter_app, Hup, Hres. }
    destruct (post_note w (title content) _ imgs tps) as [result|e]; [|done].
    destruct (note_id_of result); done.
  - left. simpl in *. by rewrite filter_app, Hup, Hres.
Qed.

(** X8. A publish run that returns always reports success; what it
    returns as data is the decoded JSON object of the response, and the note
    id is the one under data.note_id, or the empty string when the response
    has no data or no note id there.  A response that is not a JSON object
    makes the run fail with AttributeError after the note was posted. *)
Theorem X8_publish_result (w : World) (content : NoteContent) :
  (∀ r, fst (publish_note w content) = Return r →
        success r = true ∧
        ∃ fields,
          data r = Data (JObj fields) ∧
          match dict_get "data" fields with
          | None => note_id r = JStr EmptyString
          | Some (JObj inner) => note_id r = default (JStr EmptyString) (dict_get "note_id" inner)
          | Some _ => False
          end) ∧
  (∀ imgs tps tr1 tr2 result,
     upload_images w (images content) = (Return imgs, tr1) →
     resolve_topics w (topics content) [] = (Return tps, tr2) →
     post_note w (title content) (_build_desc_with_topics (desc content) tps) imgs tps
       = Return result →
     (∀ fields, result ≠ Data (JObj fields)) →
     publish_note w content
       = (Raise AttributeError,
          tr1 ++ tr2 ++ [EvPublish (_build_desc_with_topics (desc content) tps)])).
Proof.
  split.
  - intros r. unfold publish_note.
    destruct (upload_images w (images content)) as [[imgs|e] tr1]; [|done].
    destruct (resolve_topics w (topics content) []) as [[tps|e] tr2]; [|done].
    destruct (post_note w (title content) _ imgs tps) as [result|e]; [|done].
    destruct (note_id_of result) as [nid|e] eqn:Hnid; [|done].
    simpl. intros [= <-]. simpl. split; [done|].
    unfold note_id_of in Hnid.
    destruct result as [[| | | | |fields]|raw]; try done.
    exists fields. split; [done|].
    destruct (dict_get "data" fields) as [[| | | | |inner]|]; simpl in Hnid; try done;
      by injection Hnid as <-.
  - intros imgs tps tr1 tr2 result Hup Hres Hpost Hshape.
    unfold publish_note. rewrite Hup, Hres, Hpost.
    destruct result as [[| | | | |fields]|raw]; try done.
    by destruct (Hshape fields).
Qed.

Lemma X8_publish_result_witness :
  publish_note world_plain_reply (mkNoteContent "t" "d" ["a.jpg"] [])
    = (Raise AttributeError, [EvPermit 1; EvPut "slot-1" "a.jpg"; EvPublish "d"]).
Proof.
  destruct (X8_publish_result world_plain_reply (mkNoteContent "t" "d" ["a.jpg"] []))
    as [_ H].
  apply (H [mkImageInfo "slot-1" 800 600 "a.jpg"] [] [EvPermit 1; EvPut "slot-1" "a.jpg"] []
           (Raw (mkResponse 200 "text/html" "ok" (Raise JSONDecodeError))));
    [reflexivity | reflexivity | reflexivity | intros fields; discriminate].
Defined.

End PublishOrder.

(** ** Publisher: attempts of a request *)

Section Attempts.
Import Publisher.

(** X9. A request makes between one and three attempts.  When it returns,
    the value is the one of its last attempt and every attempt before that
    one raised; when it fails, it made three attempts, all of them raised,
    and the error holds the exception of the third. *)
Theorem X9_request_attempts (replies : nat → outcome Response) :
  (1 ≤ snd (_request replies) ≤ 3)%nat ∧
  (∀ k, (S k < snd (_request replies))%nat →
        raised (_request_attempt (replies k)) = true) ∧
  match fst (_request replies) with
  | Return v => _request_attempt (replies (Nat.pred (snd (_request replies)))) = Return v
  | Raise e =>
      snd (_request replies) = 3%nat ∧
      ∃ last, e = RetryError last ∧ _request_attempt (replies 2%nat) = Raise last
  end.
Proof.
  rewrite request_cases.
  destruct (_request_attempt (replies 0%nat)) eqn:E0; simpl.
  { repeat split; try lia; try done; intros k Hk; lia. }
  destruct (_request_attempt (replies 1%nat)) eqn:E1; simpl.
  { repeat split; try lia; try done; intros [|k] Hk; [by rewrite E0 | lia]. }
  destruct (_request_attempt (replies 2%nat)) eqn:E2; simpl.
  - repeat split; try lia; try done;
      intros [|[|k]] Hk; [by rewrite E0 | by rewrite E1 | lia].
  - repeat split; try lia; try (by eexists);
      intros [|[|k]] Hk; [by rewrite E0 | by rewrite E1 | lia].
Qed.

Lemma X9_request_attempts_witness :
  raised (_request_attempt (flaky_replies 0)) = true.
Proof.
  destruct (X9_request_attempts flaky_replies) as (_ & H & _).
  apply (H 0%nat). vm_compute. lia.
Defined.

(** X10. An attempt returns exactly when the status is 2xx and either the
    content-type does not contain application/json, and then it returns the
    response itself, or the body decodes and is not an object whose success
    field is false, and then it returns the decoded body whatever its
    shape (a list, a number, an object without a success field). *)
Theorem X10_attempt_returns_iff (response : Response) (v : request_value) :
  _request_attempt (Return response) = Return v ↔
  is_success response = true ∧
  ((str_contains "application/json" (content_type response) = false ∧ v = Raw response) ∨
   (str_contains "application/json" (content_type response) = true ∧
    ∃ document,
      json_body response = Return document ∧ v = Data document ∧
      ∀ fields, document = JObj fields →
                dict_get "success" fields ≠ Some (JBool false))).
Proof.
  unfold _request_attempt, raise_for_status.
  destruct (is_success response); [|split; [done | by intros [? _]]].
  destruct (str_contains "application/json" (content_type response)).
  - split.
    + intros H. split; [done|]. right. split; [done|].
      destruct (json_body response) as [document|e]; [|done].
      exists document. split; [done|].
      destruct document as [| | | | |fs]; try (injection H as <-; by split).
      destruct (dict_get "success" fs) as [[|[|]| | | |]|] eqn:E;
        try done; injection H as <-; (split; [done|]);
        intros fs' [= <-]; by rewrite E.
    + intros [_ [[? _]|[_ (document & -> & -> & Hok)]]]; [done|].
      destruct document as [| | | | |fs]; try done.
      specialize (Hok fs eq_refl).
      destruct (dict_get "success" fs) as [[|[|]| | | |]|]; done.
  - split.
    + intros [= <-]. split; [done|]. by left.
    + intros [_ [[_ ->]|[? _]]]; done.
Qed.

Lemma X10_attempt_returns_iff_witness :
  _request_attempt (Return refusal_as_text) = Return (Raw refusal_as_text).
Proof.
  apply (X10_attempt_returns_iff refusal_as_text (Raw refusal_as_text)).
  split; [reflexivity|]. left. split; reflexivity.
Defined.

End Attempts.

(** ** Publisher: signing the headers *)

Section Signing.
Import Publisher.

(** X11. Signing sets X-S and X-T to what the signer gave (to the empty
    string when the signer left one out), sets Origin and Content-Type,
    sets x-S-Common only when the signer gave x-s-common, and keeps every
    other header of the client as it was; a failure of the signer is passed
    on. *)
Theorem X11_sign_headers
    (headers signs : gmap string string) (origin : string) :
  ∃ result,
    _sign_headers headers (Return signs) origin = Return result ∧
    result !! "X-S" = Some (default EmptyString (signs !! "x-s")) ∧
    result !! "X-T" = Some (default EmptyString (signs !! "x-t")) ∧
    result !! "Origin" = Some origin ∧
    result !! "Content-Type" = Some "application/json;charset=UTF-8" ∧
    result !! "x-S-Common"
      = match signs !! "x-s-common" with
        | Some common => Some common
        | None => headers !! "x-S-Common"
        end ∧
    ∀ name, name ∉ signed_names → result !! name = headers !! name.
Proof.
  unfold _sign_headers, signed_names.
  destruct (signs !! "x-s-common") as [common|]; eexists; (split; [reflexivity|]);
    repeat split; try by simplify_map_eq.
  - intros name Hname. rewrite !not_elem_of_cons in Hname.
    destruct Hname as (? & ? & ? & ? & ? & _). by simplify_map_eq.
  - intros name Hname. rewrite !not_elem_of_cons in Hname.
    destruct Hname as (? & ? & ? & ? & ? & _). by simplify_map_eq.
Qed.

Lemma X11_sign_headers_witness :
  ∃ result,
    _sign_headers {["Cookie" := "a1=1"]} (Return {["x-s" := "sig"]}) "https://o" = Return result ∧
    result !! "Cookie" = Some "a1=1".
Proof.
  destruct (X11_sign_headers {["Cookie" := "a1=1"]} {["x-s" := "sig"]} "https://o")
    as (result & Hr & _ & _ & _ & _ & _ & Hkeep).
  exists result. split; [exact Hr|].
  rewrite Hkeep; [reflexivity|]. unfold signed_names.
  rewrite !not_elem_of_cons. repeat split; try discriminate. apply not_elem_of_nil.
Defined.

End Signing.

(** ** Proxy pool: how many endpoints a pool can hand out *)

Section PoolCapacity.
Import Proxy_ip_pool.

Lemma list_remove_first_length `{EqDecision A} (x : A) (l : list A) :
  x ∈ l → (length (list_remove_first x l) + 1 = length l)%nat.
Proof.
  induction l as [|y l IH]; simpl; intros Hin.
  - by apply elem_of_nil in Hin.
  - destruct (decide (y = x)) as [->|Hne]; [lia|].
    apply elem_of_cons in Hin as [->|Hin]; [done|]. simpl. specialize (IH Hin). lia.
Qed.

(** An attempt that does not ask the provider uses up one endpoint of the
    pool, whether it returns it or not. *)
Lemma attempt_consumes (st : pool_state) (w : Attempt) :
  ∃ evs,
    snd (snd (get_proxy_attempt st w)) = snd st ++ evs ∧
    (quiet evs = true →
       (length (proxy_list (fst (snd (get_proxy_attempt st w)))) + 1
        = length (proxy_list (fst st)))%nat).
Proof.
  destruct st as [pool log]. unfold get_proxy_attempt.
  destruct (decide (length (proxy_list pool) = 0%nat)) as [Hempty|Hfull].
  - unfold _reload_proxies, load_proxies.
    destruct (provider_get_proxy w) as [l|e]; simpl.
    + destruct (random_choice l (random_draw w)) as [p|e] eqn:Hc; simpl.
      * rewrite (list_remove_elem _ _ (random_choice_elem _ _ _ Hc)).
        destruct (enable_validate_ip pool); simpl;
          [destruct (_is_valid_proxy (probe w)) as [[|]|]; simpl|];
          rewrite <- ?(assoc_L (++)); eexists; (split; [reflexivity | simpl; done]).
      * eexists; split; [reflexivity | simpl; done].
    + eexists; split; [reflexivity | simpl; done].
  - destruct (random_choice (proxy_list pool) (random_draw w)) as [p|e] eqn:Hc; simpl.
    + assert (Hin : p ∈ proxy_list pool) by by eapply random_choice_elem.
      rewrite (list_remove_elem _ _ Hin).
      pose proof (list_remove_first_length p (proxy_list pool) Hin) as Hlen.
      destruct (enable_validate_ip pool); simpl;
        [destruct (_is_valid_proxy (probe w)) as [[|]|]; simpl|];
        first [ by exists [EvProbe p] | exists []; by rewrite app_nil_r ].
    + unfold random_choice in Hc.
      destruct (lookup_lt_is_Some_2 (proxy_list pool)
                  (random_draw w mod length (proxy_list pool))%nat) as [x Hx].
      { apply Nat.mod_upper_bound. done. }
      by rewrite Hx in Hc.
Qed.

Lemma before_consumed (pool : ProxyIpPool) (world : nat → Attempt) (n : nat) :
  quiet (snd (before pool world n)) = true →
  (length (proxy_list (fst (before pool world n))) + n = length (proxy_list pool))%nat.
Proof.
  induction n as [|n IH]; intros Hq; [simpl; lia|].
  destruct (attempt_consumes (before pool world n) (world n)) as (evs & Hlog & Hstep).
  unfold before in *. simpl in Hq |- *. rewrite Hlog, quiet_app in Hq.
  apply andb_true_iff in Hq as [Hqn Hqe].
  specialize (IH Hqn). specialize (Hstep Hqe). lia.
Qed.

Lemma get_proxy_consumed (pool : ProxyIpPool) (world : nat → Attempt) :
  quiet (snd (fst (get_proxy pool world))) = true →
  (length (proxy_list (snd (fst (fst (get_proxy pool world)))))
   + snd (get_proxy pool world) = length (proxy_list pool))%nat.
Proof.
  destruct (get_proxy_ends pool world) as (n & _ & Hn & Hlog & Hpool & _).
  rewrite Hlog, Hpool, Hn. apply before_consumed.
Qed.

(** X12. Between two loads a pool cannot hand out more endpoints than it
    holds: a call that does not reload takes one endpoint out of the pool per
    attempt, and in a run of calls none of which reloads the endpoints
    returned and the endpoints left over are together no more than the
    endpoints the pool started with. *)
Theorem X12_pool_capacity (pool : ProxyIpPool) (worlds : list (nat → Attempt)) :
  (∀ world,
     quiet (snd (fst (get_proxy pool world))) = true →
     (length (proxy_list (snd (fst (fst (get_proxy pool world)))))
      + snd (get_proxy pool world) = length (proxy_list pool))%nat) ∧
  (no_load (fst (get_proxy_calls pool worlds)) = true →
   (length (issued (fst (get_proxy_calls pool worlds)))
    + length (proxy_list (snd (get_proxy_calls pool worlds)))
    ≤ length (proxy_list pool))%nat).
Proof.
  split; [intros world; apply get_proxy_consumed|].
  revert pool; induction worlds as [|world rest IH]; intros pool; simpl; [lia|].
  pose proof (get_proxy_consumed pool world) as Hcall.
  destruct (get_proxy_ends pool world) as (n & Hn & Hn' & _).
  destruct (get_proxy pool world) as [[[r pool'] log] m]; simpl in *.
  specialize (IH pool').
  destruct (get_proxy_calls pool' rest) as [rs pool'']; simpl in *.
  intros Hq. apply andb_true_iff in Hq as [Hqlog Hqrest].
  specialize (Hcall Hqlog). specialize (IH Hqrest).
  destruct r; simpl; lia.
Qed.

Lemma X12_pool_capacity_witness :
  (length (issued (fst (get_proxy_calls (loaded (fresh_pool true) [endpoint_a; endpoint_b])
                          [flaky_world])))
   + length (proxy_list (snd (get_proxy_calls
                                (loaded (fresh_pool true) [endpoint_a; endpoint_b])
                                [flaky_world])))
   ≤ 2)%nat.
Proof.
  destruct (X12_pool_capacity (loaded (fresh_pool true) [endpoint_a; endpoint_b])
              [flaky_world]) as [_ H].
  apply H. reflexivity.
Defined.

End PoolCapacity.

(** ** Proxy pool: the current endpoint *)

Section PoolCurrent.
Import Proxy_ip_pool.

Lemma attempt_current (st : pool_state) (w : Attempt) :
  match fst (get_proxy_attempt st w) with
  | Return p => current_proxy (fst (snd (get_proxy_attempt st w))) = Some p
  | Raise _ =>
      current_proxy (fst (snd (get_proxy_attempt st w))) = current_proxy (fst st)
  end.
Proof.
  destruct st as [pool log]. unfold get_proxy_attempt.
  destruct (decide (length (proxy_list pool) = 0%nat)) as [Hempty|Hfull].
  - unfold _reload_proxies, load_proxies.
    destruct (provider_get_proxy w) as [l|e]; simpl; [|done].
    destruct (random_choice l (random_draw w)) as [p|e]; simpl; [|done].
    destruct (list_remove p l); simpl; [|done].
    destruct (enable_validate_ip pool); simpl;
      [destruct (_is_valid_proxy (probe w)) as [[|]|]; simpl|]; done.
  - destruct (random_choice (proxy_list pool) (random_draw w)) as [p|e]; simpl; [|done].
    destruct (list_remove p (proxy_list pool)); simpl; [|done].
    destruct (enable_validate_ip pool); simpl;
      [destruct (_is_valid_proxy (probe w)) as [[|]|]; simpl|]; done.
Qed.

Lemma get_proxy_current (pool : ProxyIpPool) (world : nat → Attempt) :
  match fst (fst (fst (get_proxy pool world))) with
  | Return p => current_proxy (snd (fst (fst (get_proxy pool world)))) = Some p
  | Raise _ => current_proxy (snd (fst (fst (get_proxy pool world)))) = current_proxy pool
  end.
Proof.
  rewrite get_proxy_result, retry3_cases. unfold outcome_at. cbn [state_before].
  pose proof (attempt_current (pool, []) (world 0%nat)) as H0.
  destruct (get_proxy_attempt (pool, []) (world 0%nat)) as [[p0|e0] st1]; simpl in *;
    [done|].
  pose proof (attempt_current st1 (world 1%nat)) as H1.
  destruct (get_proxy_attempt st1 (world 1%nat)) as [[p1|e1] st2]; simpl in *; [done|].
  pose proof (attempt_current st2 (world 2%nat)) as H2.
  destruct (get_proxy_attempt st2 (world 2%nat)) as [[p2|e2] st3]; simpl in *; [done|].
  congruence.
Qed.

(** X13. A call that returns an endpoint records it as the current one; a
    call that fails leaves the current endpoint as it was, although its
    failed attempts have taken endpoints out of the pool. *)
Theorem X13_current_follows_success (pool : ProxyIpPool) (world : nat → Attempt) :
  (∀ p, fst (fst (fst (get_proxy pool world))) = Return p →
        current_proxy (snd (fst (fst (get_proxy pool world)))) = Some p) ∧
  (∀ e, fst (fst (fst (get_proxy pool world))) = Raise e →
        current_proxy (snd (fst (fst (get_proxy pool world)))) = current_proxy pool).
Proof.
  pose proof (get_proxy_current pool world) as H.
  split; intros x Hx; by rewrite Hx in H.
Qed.

Lemma X13_current_follows_success_witness :
  current_proxy (snd (fst (fst (get_proxy (loaded (fresh_pool true) [endpoint_a; endpoint_b])
                                  flaky_world)))) = Some endpoint_b.
Proof.
  destruct (X13_current_follows_success
              (loaded (fresh_pool true) [endpoint_a; endpoint_b]) flaky_world) as [H _].
  apply H. reflexivity.
Defined.

Lemma get_or_refresh_returns
    (now : Z) (pool : ProxyIpPool) (buffer_seconds : Z) (world : nat → Attempt)
    (r : option IpInfoModel) :
  fst (fst (fst (get_or_refresh_proxy now pool buffer_seconds world))) = Return r →
  is_Some r ∧
  r = current_proxy (snd (fst (fst (get_or_refresh_proxy now pool buffer_seconds world)))).
Proof.
  unfold get_or_refresh_proxy.
  destruct (is_current_proxy_expired now pool buffer_seconds) eqn:Hexp.
  - pose proof (get_proxy_current pool world) as H.
    destruct (get_proxy pool world) as [[[[p|e] pool'] log] n]; simpl in *; [|done].
    intros [= <-]. by rewrite H.
  - simpl. intros [= <-]. split; [|done].
    unfold is_current_proxy_expired in Hexp. by destruct (current_proxy pool).
Qed.

(** X14. Whenever [get_or_refresh_proxy] returns, what it returns is the
    current endpoint of the pool it leaves, and there is one.  When the
    current endpoint has not expired the pool is left untouched: no request
    to the provider, no probe, no attempt. *)
Theorem X14_refresh_returns_current
    (now : Z) (pool : ProxyIpPool) (buffer_seconds : Z) (world : nat → Attempt) :
  (∀ r, fst (fst (fst (get_or_refresh_proxy now pool buffer_seconds world))) = Return r →
        is_Some r ∧
        r = current_proxy (snd (fst (fst (get_or_refresh_proxy now pool buffer_seconds world))))) ∧
  (is_current_proxy_expired now pool buffer_seconds = false →
   get_or_refresh_proxy now pool buffer_seconds world
     = (Return (current_proxy pool), pool, [], 0%nat)).
Proof.
  split; [intros r; apply get_or_refresh_returns|].
  intros Hexp. unfold get_or_refresh_proxy. by rewrite Hexp.
Qed.

Lemma X14_refresh_returns_current_witness :
  get_or_refresh_proxy 0 (mkProxyIpPool 2 true [endpoint_b] (Some endpoint_a)) 30 flaky_world
    = (Return (Some endpoint_a), mkProxyIpPool 2 true [endpoint_b] (Some endpoint_a),
       [], 0%nat).
Proof.
  destruct (X14_refresh_returns_current 0
              (mkProxyIpPool 2 true [endpoint_b] (Some endpoint_a)) 30 flaky_world)
    as [_ H].
  apply H. reflexivity.
Defined.

(** X15. With validation switched off and a pool that is not empty, a call
    returns at its first attempt an endpoint of the pool, takes that one
    endpoint out, and neither probes nor asks the provider. *)
Theorem X15_no_validation_first_attempt (pool : ProxyIpPool) (world : nat → Attempt) :
  enable_validate_ip pool = false →
  proxy_list pool ≠ [] →
  ∃ p,
    p ∈ proxy_list pool ∧
    get_proxy pool world
      = (Return p,
         mkProxyIpPool (ip_pool_count pool) false
           (list_remove_first p (proxy_list pool)) (Some p),
         [], 1%nat).
Proof.
  intros Hval Hne.
  destruct (lookup_lt_is_Some_2 (proxy_list pool)
              (random_draw (world 0%nat) mod length (proxy_list pool))%nat) as [p Hp].
  { apply Nat.mod_upper_bound. by destruct (proxy_list pool). }
  assert (Hc : random_choice (proxy_list pool) (random_draw (world 0%nat)) = Return p).
  { unfold random_choice. by rewrite Hp. }
  assert (Hin : p ∈ proxy_list pool) by by eapply random_choice_elem.
  exists p. split; [done|].
  rewrite get_proxy_result, retry3_cases. unfold outcome_at. cbn [state_before].
  unfold get_proxy_attempt.
  destruct (decide (length (proxy_list pool) = 0%nat)) as [Hlen|_].
  { destruct (proxy_list pool); [done | discriminate]. }
  rewrite Hc, (list_remove_elem _ _ Hin). simpl. rewrite Hval. simpl.
  unfold set_current_proxy, set_proxy_list. simpl. by rewrite Hval.
Qed.

Lemma X15_no_validation_first_attempt_witness :
  ∃ p, get_proxy (loaded (fresh_pool false) [endpoint_a; endpoint_b]) flaky_world
       = (Return p,
          mkProxyIpPool 2 false (list_remove_first p [endpoint_a; endpoint_b]) (Some p),
          [], 1%nat).
Proof.
  destruct (X15_no_validation_first_attempt
              (loaded (fresh_pool false) [endpoint_a; endpoint_b]) flaky_world)
    as (p & _ & H); [reflexivity | discriminate |].
  exists p. exact H.
Defined.

(** X16. When the pool is empty and the provider fails, every attempt
    passes the provider's error on without choosing or probing anything; the
    call asks the provider three times and fails with the error of the third
    request, the pool stays empty and the current endpoint is not touched. *)
Theorem X16_provider_failure (pool : ProxyIpPool) (world : nat → Attempt) (e : nat → exn) :
  proxy_list pool = [] →
  (∀ k, provider_get_proxy (world k) = Raise (e k)) →
  get_proxy pool world =
    (Raise (RetryError (e 2%nat)),
     set_proxy_list pool [],
     [EvLoad (ip_pool_count pool); EvLoad (ip_pool_count pool); EvLoad (ip_pool_count pool)],
     3%nat).
Proof.
  intros Hempty Hprov.
  assert (Hstep : ∀ p log k, proxy_list p = [] →
    get_proxy_attempt (p, log) (world k) =
      (Raise (e k), (set_proxy_list p [], log ++ [EvLoad (ip_pool_count p)]))).
  { intros p log k Hp. unfold get_proxy_attempt, _reload_proxies, load_proxies.
    by rewrite Hp, Hprov. }
  rewrite get_proxy_result, retry3_cases. unfold outcome_at. cbn [state_before].
  rewrite (Hstep pool [] 0%nat Hempty). cbn [fst snd].
  rewrite (Hstep (set_proxy_list pool []) _ 1%nat eq_refl). cbn [fst snd].
  rewrite (Hstep (set_proxy_list (set_proxy_list pool []) []) _ 2%nat eq_refl). done.
Qed.

Lemma X16_provider_failure_witness :
  get_proxy (fresh_pool true) (fun _ => answer 200) =
    (Raise (RetryError ProviderFailure), fresh_pool true,
     [EvLoad 2; EvLoad 2; EvLoad 2], 3%nat).
Proof.
  apply (X16_provider_failure (fresh_pool true) (fun _ => answer 200)
           (fun _ => ProviderFailure)); reflexivity.
Defined.

End PoolCurrent.

(** ** Proxy mixin: the client's proxy URL follows the pool *)

Section Mixin.
Import Proxy_ip_pool Proxy_mixin.

(** X17. A client without a pool, or whose pool's current endpoint has not
    expired, is left as it is.  Otherwise, when the refresh returns, the
    client's proxy URL is the URL of the endpoint that is now current in its
    pool, and when the refresh fails the client keeps the URL it had. *)
Theorem X17_mixin_follows_pool
    (now now' : Z) (self : Client) (world : nat → Attempt) :
  (_proxy_ip_pool self = None →
   _refresh_proxy_if_expired now now' self world = (Return tt, self, [])) ∧
  (∀ pool, _proxy_ip_pool self = Some pool →
     is_current_proxy_expired now pool 30 = false →
     _refresh_proxy_if_expired now now' self world = (Return tt, self, [])) ∧
  (∀ pool, _proxy_ip_pool self = Some pool →
     is_current_proxy_expired now pool 30 = true →
     match fst (fst (_refresh_proxy_if_expired now now' self world)) with
     | Return _ =>
         ∃ p pool',
           _proxy_ip_pool (snd (fst (_refresh_proxy_if_expired now now' self world)))
             = Some pool' ∧
           current_proxy pool' = Some p ∧
           proxy (snd (fst (_refresh_proxy_if_expired now now' self world)))
             = Some (proxy_url p)
     | Raise _ =>
         proxy (snd (fst (_refresh_proxy_if_expired now now' self world))) = proxy self
     end).
Proof.
  unfold _refresh_proxy_if_expired. split; [by intros ->|]. split.
  - intros pool -> Hexp. by rewrite Hexp.
  - intros pool -> Hexp. rewrite Hexp.
    pose proof (get_or_refresh_returns now' pool 30 world) as Hret.
    destruct (get_or_refresh_proxy now' pool 30 world) as [[[[[p|]|e] pool'] log] n];
      simpl in *; [|done|done].
    destruct (Hret (Some p) eq_refl) as [_ Hcur]. by exists p, pool'.
Qed.

Lemma X17_mixin_follows_pool_witness :
  proxy (snd (fst (_refresh_proxy_if_expired 0 0
                     (mkClient None (Some (loaded (fresh_pool true) [endpoint_a; endpoint_b])))
                     flaky_world)))
    = Some "http://10.0.0.2:8080".
Proof.
  destruct (X17_mixin_follows_pool 0 0
              (mkClient None (Some (loaded (fresh_pool true) [endpoint_a; endpoint_b])))
              flaky_world) as (_ & _ & H).
  specialize (H (loaded (fresh_pool true) [endpoint_a; endpoint_b]) eq_refl eq_refl).
  vm_compute in H. destruct H as (p & pool' & Hpool & Hcur & Hurl).
  vm_compute. reflexivity.
Defined.

End Mixin.

(** ** Human behaviour: counting actions *)

Section Counting.
Import Human_behavior.

Lemma breaks_cons (w : option Q) (waits : list (option Q)) :
  breaks (w :: waits)
    = ((match w with Some _ => 1 | None => 0 end) + breaks waits)%nat.
Proof. unfold breaks. by destruct w. Qed.

Lemma record_actions_counts (cfg : Config) (us : list Q) (self : HumanBehavior) :
  enabled self = true →
  (0 ≤ action_count self < break_interval self)%Z →
  let n := Z.of_nat (length us) in
  let final := fst (record_actions cfg self us) in
  enabled final = true ∧
  break_interval final = break_interval self ∧
  action_count final = ((action_count self + n) `mod` break_interval self)%Z ∧
  Z.of_nat (breaks (snd (record_actions cfg self us)))
    = ((action_count self + n) `div` break_interval self)%Z.
Proof.
  revert self; induction us as [|u rest IH]; intros self Hen Hc; cbn zeta.
  - simpl. rewrite Z.add_0_r, Z.mod_small, Z.div_small by lia. done.
  - cbn [record_actions]. unfold check_and_take_break. rewrite Hen. cbn [negb].
    cbn [action_count break_interval enabled].
    destruct (Z.leb_spec (break_interval self) (action_count self + 1)) as [Hge|Hlt].
    + specialize (IH (mkHumanBehavior true 0 (break_interval self)) eq_refl).
      cbn [action_count break_interval enabled] in IH.
      destruct (IH ltac:(lia)) as (He & Hb & Hcount & Hbreaks).
      destruct (record_actions cfg _ rest) as [final waits]. cbn [fst snd] in *.
      rewrite breaks_cons. cbn [length].
      assert (Hb1 : (action_count self + 1 = break_interval self)%Z) by lia.
      replace (action_count self + Z.of_nat (S (length rest)))%Z
        with (Z.of_nat (length rest) + 1 * break_interval self)%Z by lia.
      rewrite Z.mod_add, Z.div_add by lia.
      rewrite Z.add_0_l in Hcount, Hbreaks. repeat split; first [done | lia].
    + specialize (IH (mkHumanBehavior true (action_count self + 1) (break_interval self))
                     eq_refl).
      cbn [action_count break_interval enabled] in IH.
      destruct (IH ltac:(lia)) as (He & Hb & Hcount & Hbreaks).
      destruct (record_actions cfg _ rest) as [final waits]. cbn [fst snd] in *.
      rewrite breaks_cons. cbn [length].
      replace (action_count self + Z.of_nat (S (length rest)))%Z
        with (action_count self + 1 + Z.of_nat (length rest))%Z by lia.
      repeat split; first [done | lia].
Qed.

Lemma record_actions_disabled (cfg : Config) (us : list Q) (self : HumanBehavior) :
  enabled self = false →
  record_actions cfg self us = (self, replicate (length us) None).
Proof.
  intros Hoff. induction us as [|u rest IH]; simpl; [done|].
  unfold check_and_take_break. rewrite Hoff. simpl. by rewrite IH.
Qed.

Lemma record_actions_waits (cfg : Config) (us : list Q) (self : HumanBehavior) :
  enabled self = true →
  (0 ≤ action_count self < break_interval self)%Z →
  ∀ (i : nat) (u : Q), us !! i = Some u →
    snd (record_actions cfg self us) !! i =
      Some (if decide (((action_count self + Z.of_nat i + 1) `mod` break_interval self)%Z
                       = 0%Z)
            then Some (uniform (SESSION_BREAK_MIN_SEC cfg) (SESSION_BREAK_MAX_SEC cfg) u)
            else None).
Proof.
  revert self; induction us as [|v rest IH]; intros self Hen Hc i u Hi; [done|].
  cbn [record_actions]. unfold check_and_take_break. rewrite Hen. cbn [negb].
  cbn [action_count break_interval enabled].
  destruct (Z.leb_spec (break_interval self) (action_count self + 1)) as [Hge|Hlt].
  - assert (Hb1 : (action_count self + 1 = break_interval self)%Z) by lia.
    specialize (IH (mkHumanBehavior true 0 (break_interval self)) eq_refl).
    cbn [action_count break_interval enabled] in IH.
    destruct (record_actions cfg _ rest) as [final waits]. cbn [fst snd] in *.
    destruct i as [|i]; simpl in Hi.
    + injection Hi as ->. simpl. rewrite Z.add_0_r, Hb1, Z.mod_same by lia.
      unfold session_break_delay. done.
    + simpl. rewrite (IH ltac:(lia) i u Hi).
      replace (action_count self + Z.of_nat (S i) + 1)%Z
        with (0 + Z.of_nat i + 1 + 1 * break_interval self)%Z by lia.
      by rewrite Z.mod_add by lia.
  - specialize (IH (mkHumanBehavior true (action_count self + 1) (break_interval self))
                   eq_refl).
    cbn [action_count break_interval enabled] in IH.
    destruct (record_actions cfg _ rest) as [final waits]. cbn [fst snd] in *.
    destruct i as [|i]; simpl in Hi.
    + injection Hi as ->. simpl. rewrite Z.add_0_r, Z.mod_small by lia.
      by destruct (decide (action_count self + 1 = 0)%Z); [lia|].
    + simpl. rewrite (IH ltac:(lia) i u Hi).
      replace (action_count self + Z.of_nat (S i) + 1)%Z
        with (action_count self + 1 + Z.of_nat i + 1)%Z by lia.
      done.
Qed.

(** X18. With the simulation enabled, a break interval b of at least 1 and
    a counter c that starts below b, n calls of [check_and_take_break] leave
    the counter at (c + n) mod b; call number i (from 0) waits exactly when b
    divides c + i + 1, and then for a session break drawn from the
    session-break interval with that call's draw; so (c + n) div b session
    breaks were waited for.  With the simulation disabled no call waits and
    the counter never moves. *)
Theorem X18_counter_and_breaks (cfg : Config) (self : HumanBehavior) (us : list Q) :
  (enabled self = true →
   (0 ≤ action_count self < break_interval self)%Z →
   action_count (fst (record_actions cfg self us))
     = ((action_count self + Z.of_nat (length us)) `mod` break_interval self)%Z ∧
   (∀ (i : nat) (u : Q), us !! i = Some u →
      snd (record_actions cfg self us) !! i =
        Some (if decide (((action_count self + Z.of_nat i + 1) `mod` break_interval self)%Z
                         = 0%Z)
              then Some (uniform (SESSION_BREAK_MIN_SEC cfg) (SESSION_BREAK_MAX_SEC cfg) u)
              else None)) ∧
   Z.of_nat (breaks (snd (record_actions cfg self us)))
     = ((action_count self + Z.of_nat (length us)) `div` break_interval self)%Z) ∧
  (enabled self = false →
   record_actions cfg self us = (self, replicate (length us) None)).
Proof.
  split.
  - intros Hen Hc. destruct (record_actions_counts cfg us self Hen Hc) as (_ & _ & ? & ?).
    split; [done|]. split; [|done]. by apply record_actions_waits.
  - apply record_actions_disabled.
Qed.

Lemma X18_counter_and_breaks_witness :
  action_count (fst (record_actions base_config (mkHumanBehavior true 1 3)
                       [0%Q; (1 # 2)%Q; 0%Q; 0%Q; 0%Q; 0%Q; 0%Q])) = 2%Z ∧
  snd (record_actions base_config (mkHumanBehavior true 1 3)
         [0%Q; (1 # 2)%Q; 0%Q; 0%Q; 0%Q; 0%Q; 0%Q]) !! 1%nat
    = Some (Some (uniform 10 30 (1 # 2))) ∧
  Z.of_nat (breaks (snd (record_actions base_config (mkHumanBehavior true 1 3)
                           [0%Q; (1 # 2)%Q; 0%Q; 0%Q; 0%Q; 0%Q; 0%Q]))) = 2%Z.
Proof.
  destruct (X18_counter_and_breaks base_config (mkHumanBehavior true 1 3)
              [0%Q; (1 # 2)%Q; 0%Q; 0%Q; 0%Q; 0%Q; 0%Q]) as [H _].
  destruct H as (Hcount & Hwaits & Hbreaks); [reflexivity | simpl; lia |].
  split; [exact Hcount|]. split; [|exact Hbreaks].
  exact (Hwaits 1%nat (1 # 2)%Q eq_refl).
Defined.

End Counting.

(** ** Human behaviour: reading time and the reported intervals *)

Section Reading.
Import Human_behavior.
Open Scope Q_scope.

Lemma reading_time_mono (n m : Z) :
  (n ≤ m)%Z → inject_Z n / 2000 <= inject_Z m / 2000.
Proof.
  intros H. rewrite Zle_Qle in H. unfold Qdiv.
  apply Qmult_le_compat_r; [done | by vm_compute].
Qed.

(** X19. With the simulation enabled, the reading time added to a page-view
    delay never decreases when the content gets longer, is nothing for empty
    content, and is exactly two seconds from 4000 characters on. *)
Theorem X19_reading_time (cfg : Config) (self : HumanBehavior) (u : Q) :
  enabled self = true →
  (∀ n m, (n ≤ m)%Z → page_view_delay cfg self n u <= page_view_delay cfg self m u) ∧
  page_view_delay cfg self 0 u
    == uniform (PAGE_VIEW_MIN_SEC cfg) (PAGE_VIEW_MAX_SEC cfg) u ∧
  (∀ n, (4000 ≤ n)%Z →
        page_view_delay cfg self n u
          == uniform (PAGE_VIEW_MIN_SEC cfg) (PAGE_VIEW_MAX_SEC cfg) u + 2).
Proof.
  intros Hon. unfold page_view_delay. rewrite Hon. cbn [negb].
  split; [|split].
  - intros n m Hnm. pose proof (reading_time_mono n m Hnm) as Hle.
    destruct (Q.min_spec (inject_Z n / 2000) 2) as [[? Hn]|[? Hn]];
      destruct (Q.min_spec (inject_Z m / 2000) 2) as [[? Hm]|[? Hm]];
      rewrite Hn, Hm; lra.
  - assert (Hz : inject_Z 0 / 2000 == 0) by by vm_compute.
    destruct (Q.min_spec (inject_Z 0 / 2000) 2) as [[? H0]|[H2 H0]]; rewrite H0; lra.
  - intros n Hn. pose proof (reading_time_mono 4000 n Hn) as Hle.
    assert (H4 : inject_Z 4000 / 2000 == 2) by by vm_compute.
    destruct (Q.min_spec (inject_Z n / 2000) 2) as [[? Hm]|[? Hm]]; rewrite Hm; lra.
Qed.

Lemma X19_reading_time_witness :
  page_view_delay base_config (init base_config) 9000 (1 # 2)
    == uniform 2 5 (1 # 2) + 2.
Proof.
  destruct (X19_reading_time base_config (init base_config) (1 # 2) eq_refl)
    as (_ & _ & H).
  apply (H 9000%Z). lia.
Defined.

Lemma delay_bounds (cfg : Config) (self : HumanBehavior) (c : category) (u : Q) :
  enabled self = true →
  0 <= u → u < 1 →
  fst (interval cfg c) <= snd (interval cfg c) →
  match c with PageView content_length => (0 ≤ content_length)%Z | _ => True end →
  fst (interval cfg c) <= delay cfg self c u ∧
  delay cfg self c u <= snd (interval cfg c) + extra c.
Proof.
  intros Hon H0 H1 Hint Hlen.
  destruct c as [lo hi|n| | |]; simpl in *;
    unfold random_delay, page_view_delay, action_delay, comment_crawl_delay,
           session_break_delay; rewrite Hon; simpl;
    destruct (uniform_bounds _ _ u Hint H0 H1) as [Hlo Hhi];
    try (split; lra).
  destruct (extra_time_bounds n Hlen) as [He0 He2]. split; lra.
Qed.

(** X20. [get_delay_config] reports, under the names page_view, action,
    comment and session_break, the interval the matching delay is drawn from,
    so an enabled delay of such a category lies between the reported minimum
    and the reported maximum plus the reading time; every other name,
    default included, gets the pair made of the minimum sleep and the fixed
    fallback delay. *)
Theorem X20_reported_intervals
    (cfg : Config) (crawler_min_sleep_sec : Q) (self : HumanBehavior) :
  (∀ c name, action_type_of c = Some name →
     get_delay_config cfg crawler_min_sleep_sec name = interval cfg c) ∧
  (∀ c name u,
     action_type_of c = Some name →
     enabled self = true → 0 <= u → u < 1 →
     fst (interval cfg c) <= snd (interval cfg c) →
     match c with PageView content_length => (0 ≤ content_length)%Z | _ => True end →
     fst (get_delay_config cfg crawler_min_sleep_sec name) <= delay cfg self c u ∧
     delay cfg self c u
       <= snd (get_delay_config cfg crawler_min_sleep_sec name) + extra c) ∧
  (∀ name,
     name ∉ ["page_view"; "action"; "comment"; "session_break"] →
     get_delay_config cfg crawler_min_sleep_sec name
       = (crawler_min_sleep_sec, CRAWLER_MAX_SLEEP_SEC cfg)).
Proof.
  assert (Hnames : ∀ c name, action_type_of c = Some name →
            get_delay_config cfg crawler_min_sleep_sec name = interval cfg c).
  { intros c name Hname. unfold get_delay_config, delay_configs.
    destruct c; simpl in Hname; try done; injection Hname as <-; by simplify_map_eq. }
  split; [done|]. split.
  - intros c name u Hname Hon H0 H1 Hint Hlen.
    rewrite (Hnames c name Hname). by apply delay_bounds.
  - intros name Hname. rewrite !not_elem_of_cons in Hname.
    destruct Hname as (? & ? & ? & ? & _).
    unfold get_delay_config, delay_configs.
    destruct (decide (name = "default")) as [->|]; by simplify_map_eq.
Qed.

Lemma X20_reported_intervals_witness :
  get_delay_config base_config (3 # 2) "scroll" = ((3 # 2), 2).
Proof.
  destruct (X20_reported_intervals base_config (3 # 2) (init base_config)) as (_ & _ & H).
  apply H. rewrite !not_elem_of_cons. repeat split; try discriminate. apply not_elem_of_nil.
Defined.

End Reading.

(** ** Browser launcher: ports, command line, escalation *)

Section Launcher.
Import Browser_launcher.




(** X22. [cleanup] escalates only after a graceful stop has timed out: a
    SIGKILL goes to the process group only on a system other than Windows,
    after SIGTERM was delivered to the same group and the wait for the
    process ran into its timeout, and it is sent once; taskkill is run only on
    Windows, after [terminate] went through and the wait timed out. *)
Theorem X22_kill_only_after_timeout (self : BrowserLauncher) (os : OS) :
  (filter is_sigkill (snd (cleanup self os)) ≠ [] →
   system self ≠ "Windows" ∧
   killpg_term os = Return tt ∧
   wait_graceful os = Raise TimeoutExpired ∧
   ∃ pgid,
     getpgid os = Return pgid ∧
     Killpg pgid SIGTERM ∈ snd (cleanup self os) ∧
     filter is_sigkill (snd (cleanup self os)) = [Killpg pgid SIGKILL]) ∧
  (filter is_taskkill (snd (cleanup self os)) ≠ [] →
   system self = "Windows" ∧
   terminate os = Return tt ∧
   wait_graceful os = Raise TimeoutExpired).
Proof.
  unfold cleanup, except_Exception, stop_windows, stop_posix, and_then.
  split; intros Hkill;
    repeat (case_match; simplify_eq/=); try done.
  all: repeat split; try done.
  all: try (eexists; split; [done|]; split; [set_solver | done]).
  all: repeat match goal with u : unit |- _ => destruct u end; done.
Qed.

Lemma X22_kill_only_after_timeout_witness :
  filter is_sigkill
    (snd (cleanup (mkBrowserLauncher "Linux" (Some (mkPopen 77)) (Some 9222)) stubborn_os))
  = [Killpg 4242 SIGKILL].
Proof.
  destruct (X22_kill_only_after_timeout
              (mkBrowserLauncher "Linux" (Some (mkPopen 77)) (Some 9222)) stubborn_os)
    as [H _].
  destruct H as (_ & _ & _ & pgid & Hpg & _ & Hk); [discriminate|].
  injection Hpg as <-. exact Hk.
Defined.

(** X23. The command line starts with the executable and the debugging
    port; after the executable it holds the headless switch exactly when
    headless mode is asked for and the maximized-window switch exactly when
    it is not, so never both; a user data directory that is not empty comes
    last.  [launch_browser] stores the process handle when the process was
    started and leaves the launcher as it was when starting it failed. *)
Theorem X23_command_line
    (self : BrowserLauncher) (spawn : list string → outcome Popen)
    (browser_path : string) (port : Z) (headless : bool) (user_data_dir : option string) :
  let args := launch_args browser_path port headless user_data_dir in
  args !! 0%nat = Some browser_path ∧
  args !! 1%nat = Some ("--remote-debugging-port=" +:+ pretty port) ∧
  ("--headless=new" ∈ drop 1 args ↔ headless = true) ∧
  ("--start-maximized" ∈ drop 1 args ↔ headless = false) ∧
  (∀ dir, user_data_dir = Some dir → dir ≠ EmptyString →
          last args = Some ("--user-data-dir=" +:+ dir)) ∧
  match spawn args with
  | Return process =>
      launch_browser self spawn browser_path port headless user_data_dir
        = (Return process, mkBrowserLauncher (system self) (Some process) (debug_port self))
  | Raise e =>
      launch_browser self spawn browser_path port headless user_data_dir = (Raise e, self)
  end.
Proof.
  intros args. subst args. unfold launch_browser.
  split; [done|]. split; [done|].
  split; [|split; [|split]].
  - unfold launch_args.
    destruct headless; destruct user_data_dir as [dir|];
      [destruct (decide (dir = EmptyString))| |destruct (decide (dir = EmptyString))|];
      cbn [drop app]; (split; [|try done]); try done; intros Hin;
      first [ repeat (apply elem_of_cons in Hin as [Hin|Hin]; [discriminate Hin|]);
              by apply elem_of_nil in Hin
            | repeat (first [ apply list_elem_of_here | apply list_elem_of_further ]) ].
  - unfold launch_args.
    destruct headless; destruct user_data_dir as [dir|];
      [destruct (decide (dir = EmptyString))| |destruct (decide (dir = EmptyString))|];
      cbn [drop app]; (split; [|try done]); try done; intros Hin;
      first [ repeat (apply elem_of_cons in Hin as [Hin|Hin]; [discriminate Hin|]);
              by apply elem_of_nil in Hin
            | repeat (first [ apply list_elem_of_here | apply list_elem_of_further ]) ].
  - intros dir -> Hne. unfold launch_args. rewrite decide_False by done.
    rewrite (assoc_L (++)). apply last_snoc.
  - by destruct (spawn _).
Qed.

Lemma X23_command_line_witness :
  last (launch_args "/usr/bin/chromium" 9222 true (Some "profile"))
    = Some "--user-data-dir=profile".
Proof.
  destruct (X23_command_line (mkBrowserLauncher "Linux" None None)
              (fun _ => Raise OSError) "/usr/bin/chromium" 9222 true (Some "profile"))
    as (_ & _ & _ & _ & H & _).
  apply (H "profile"); [reflexivity | discriminate].
Defined.

End Launcher.

(** ** File writer: runs of appends *)

Section Appends.
Import Async_file_writer.

Lemma string_app_assoc (a b c : string) : (a +:+ b) +:+ c = a +:+ (b +:+ c).
Proof.
  induction a as [|x a IH]; [done|].
  change (String x ((a +:+ b) +:+ c) = String x (a +:+ (b +:+ c))). by f_equal.
Qed.

Lemma string_app_nil_r (a : string) : a +:+ EmptyString = a.
Proof.
  induction a as [|x a IH]; [done|].
  change (String x (a +:+ EmptyString) = String x a). by f_equal.
Qed.

Lemma string_app_nonempty (a b : string) : a ≠ EmptyString → a +:+ b ≠ EmptyString.
Proof. by destruct a. Qed.

Lemma read_existing_decoded (read_text : string → outcome string)
    (json_loads : string → outcome json)
    (fs : gmap string string) (file_path stored content : string) (items : list json) :
  fs !! file_path = Some stored →
  stored ≠ EmptyString →
  read_text stored = Return content →
  content ≠ EmptyString →
  json_loads content = Return (JArr items) →
  read_existing read_text json_loads fs file_path = Return items.
Proof.
  intros Hfile Hne Hread Hfull Hload. unfold read_existing, try_read. rewrite Hfile.
  destruct stored as [|a stored]; [done|]. simpl. rewrite Hread.
  destruct (decide (content = EmptyString)); [done|]. by rewrite Hload.
Qed.

Section Json.
Variable read_text : string → outcome string.
Variable json_loads : string → outcome json.
Variable json_dumps : json → string.

Lemma write_items_from (file_path : string) (rest written : list json)
    (fs : gmap string string) :
  match written with
  | [] => fs !! file_path = None
  | _ => fs !! file_path = Some (json_dumps (JArr written))
  end →
  (∀ l, l ≠ [] → l `prefix_of` written ++ rest →
        read_text (json_dumps (JArr l)) = Return (json_dumps (JArr l)) ∧
        json_loads (json_dumps (JArr l)) = Return (JArr l) ∧
        json_dumps (JArr l) ≠ EmptyString) →
  match written ++ rest with
  | [] =>
      write_items_to_json read_text json_loads json_dumps fs file_path rest !! file_path
        = None
  | _ =>
      write_items_to_json read_text json_loads json_dumps fs file_path rest !! file_path
        = Some (json_dumps (JArr (written ++ rest)))
  end ∧
  ∀ other, other ≠ file_path →
    write_items_to_json read_text json_loads json_dumps fs file_path rest !! other
      = fs !! other.
Proof.
  revert written fs; induction rest as [|item rest IH]; intros written fs Hstate Hcodec.
  - rewrite app_nil_r. simpl. split; [by destruct written | done].
  - assert (Hread : read_existing read_text json_loads fs file_path = Return written).
    { destruct written as [|first more].
      - unfold read_existing. by rewrite Hstate.
      - destruct (Hcodec (first :: more)) as (Hback & Hload & Hne);
          [done| by apply prefix_app_r|].
        by eapply read_existing_decoded. }
    cbn [write_items_to_json]. unfold write_single_item_to_json. rewrite Hread.
    cbn [snd].
    destruct (IH (written ++ [item])
                 (<[file_path := json_dumps (JArr (written ++ [item]))]> fs))
      as [Hfinal Hframe].
    { rewrite lookup_insert_eq. by destruct written. }
    { intros l Hl Hpre. apply Hcodec; [done|]. by rewrite <- (assoc_L (++)) in Hpre. }
    rewrite <- (assoc_L (++)) in Hfinal. simpl in Hfinal. split.
    + destruct written; simpl in *; done.
    + intros other Hother. rewrite Hframe by done. by rewrite lookup_insert_ne.
Qed.

End Json.

(** X24. Appending N records, one call after the other, to a JSON target
    that does not exist yet leaves a document that decodes to those N
    records in the order of the calls, and leaves every other target as it
    was; this holds for every decoder and encoder that round-trip the lists
    written on the way, as text read back unchanged, and never encode to the
    empty text. *)
Theorem X24_appends_keep_every_record
    (read_text : string → outcome string)
    (json_loads : string → outcome json) (json_dumps : json → string)
    (fs : gmap string string) (file_path : string) (items : list json) :
  fs !! file_path = None →
  items ≠ [] →
  (∀ l, l ≠ [] → l `prefix_of` items →
        read_text (json_dumps (JArr l)) = Return (json_dumps (JArr l)) ∧
        json_loads (json_dumps (JArr l)) = Return (JArr l) ∧
        json_dumps (JArr l) ≠ EmptyString) →
  let final := write_items_to_json read_text json_loads json_dumps fs file_path items in
  final !! file_path = Some (json_dumps (JArr items)) ∧
  json_loads (json_dumps (JArr items)) = Return (JArr items) ∧
  ∀ other, other ≠ file_path → final !! other = fs !! other.
Proof.
  intros Hnew Hne Hcodec final.
  destruct (write_items_from read_text json_loads json_dumps file_path items [] fs
              Hnew Hcodec) as [Hfinal Hframe].
  simpl in Hfinal. split; [by destruct items|]. split; [|done].
  by apply Hcodec.
Qed.

Lemma X24_appends_keep_every_record_witness :
  write_items_to_json utf8_read count_loads count_dumps ∅ "notes.json" [JNull; JNull]
    !! "notes.json" = Some "xxx".
Proof.
  destruct (X24_appends_keep_every_record utf8_read count_loads count_dumps ∅
              "notes.json" [JNull; JNull]) as (H & _).
  - reflexivity.
  - discriminate.
  - intros l Hl [k Hk]. destruct l as [|a [|b [|c l]]]; [done| | |]; simplify_eq/=; done.
  - exact H.
Defined.



Section Csv.
Variable header_line : json → string.
Variable row_line : json → string.

Lemma write_rows_to_existing (file_path : string) (items : list json)
    (fs : gmap string string) (content : string) :
  fs !! file_path = Some content →
  content ≠ EmptyString →
  write_items_to_csv header_line row_line fs file_path items !! file_path
    = Some (content +:+ rows row_line items).
Proof.
  revert fs content; induction items as [|item rest IH]; intros fs content Hfile Hne.
  - simpl. by rewrite Hfile, string_app_nil_r.
  - cbn [write_items_to_csv]. unfold write_to_csv. rewrite Hfile. cbn [default snd].
    rewrite bool_decide_true by by eexists.
    destruct content as [|a content]; [done|]. cbn [negb orb String.length Nat.eqb].
    rewrite (IH _ (String a content +:+ EmptyString +:+ row_line item)).
    + simpl. by rewrite string_app_assoc.
    + by rewrite lookup_insert_eq.
    + done.
Qed.

End Csv.

(** X26. In a CSV target the header is written exactly once, by the first
    append to a target that does not exist or is empty, and it is the header
    of that first record; every later append, and every append to a target
    that already has content, adds its row and nothing else. *)
Theorem X26_csv_header_once
    (header_line row_line : json → string)
    (fs : gmap string string) (file_path : string) :
  (∀ content items,
     fs !! file_path = Some content → content ≠ EmptyString →
     write_items_to_csv header_line row_line fs file_path items !! file_path
       = Some (content +:+ rows row_line items)) ∧
  (∀ first rest,
     fs !! file_path = None ∨ fs !! file_path = Some EmptyString →
     row_line first ≠ EmptyString →
     write_items_to_csv header_line row_line fs file_path (first :: rest) !! file_path
       = Some (header_line first +:+ row_line first +:+ rows row_line rest)).
Proof.
  split.
  - intros content items. apply write_rows_to_existing.
  - intros first rest Hfresh Hrow. cbn [write_items_to_csv]. unfold write_to_csv.
    assert (Hhead : (negb (bool_decide (is_Some (fs !! file_path)))
                     || (String.length (default EmptyString (fs !! file_path)) =? 0)%nat)
                    = true
                    ∧ default EmptyString (fs !! file_path) = EmptyString).
    { destruct Hfresh as [-> | ->]; by split. }
    destruct Hhead as [-> ->]. cbn [snd].
    rewrite (write_rows_to_existing header_line row_line file_path rest _
               (header_line first +:+ row_line first)).
    + by rewrite string_app_assoc.
    + by rewrite lookup_insert_eq.
    + intros Hempty. destruct (header_line first); [done | discriminate].
Qed.

Lemma X26_csv_header_once_witness :
  write_items_to_csv (fun _ => "id;") (fun _ => "1;") ∅ "notes.csv" [JNull; JNull]
    !! "notes.csv" = Some "id;1;1;".
Proof.
  destruct (X26_csv_header_once (fun _ => "id;") (fun _ => "1;") ∅ "notes.csv") as [_ H].
  apply (H JNull [JNull]); [by left | discriminate].
Defined.

End Appends.

(** ** Router: the registry of uploaded images *)

Section Registry.
Import Publisher Router_publisher.

Lemma upload_one_info (w : World) (tmp_path : string) (info : ImageInfo) :
  fst (upload_one w tmp_path) = Return info → local_path info = tmp_path.
Proof.
  unfold upload_one. destruct (get_upload_permit w 1) as [permit|e]; [|done].
  destruct (file_ids permit !! 0%nat) as [fid|]; [|done].
  unfold Publisher.upload_image.
  destruct (open_image w tmp_path) as [[wd ht]|e]; [|done].
  destruct (put_image w fid (token permit) tmp_path) as [r|e]; [|done].
  destruct (raise_for_status r); [|done]. simpl. by intros [= <-].
Qed.

(** X27. The upload endpoint answers 503 without a publisher and 400 for a
    content type other than JPEG, PNG or WebP, in both cases without touching
    anything.  Otherwise it either registers the uploaded image under its
    slot, with the temporary file as its local path, or answers 500 and
    leaves the registry as it was; in both cases the temporary file stays on
    disk, so after a failure no registry entry is left through which the
    file could be deleted. *)
Theorem X27_upload_endpoint
    (publisher : option World) (st : Store) (content_type tmp_path : string) :
  (publisher = None →
   upload_image publisher st content_type tmp_path = (HTTPException 503, st, [])) ∧
  (∀ w, publisher = Some w → content_type ∉ allowed_types →
   upload_image publisher st content_type tmp_path = (HTTPException 400, st, [])) ∧
  (∀ w, publisher = Some w → content_type ∈ allowed_types →
   tmp_path ∈ files (snd (fst (upload_image publisher st content_type tmp_path))) ∧
   match fst (fst (upload_image publisher st content_type tmp_path)) with
   | Ok info =>
       local_path info = tmp_path ∧
       _uploaded_images (snd (fst (upload_image publisher st content_type tmp_path)))
         = <[file_id info := info]> (_uploaded_images st)
   | HTTPException status =>
       status = 500 ∧
       _uploaded_images (snd (fst (upload_image publisher st content_type tmp_path)))
         = _uploaded_images st
   end).
Proof.
  unfold upload_image. split; [by intros ->|]. split.
  - intros w -> Hbad. by rewrite bool_decide_false.
  - intros w -> Hok. rewrite bool_decide_true by done.
    pose proof (upload_one_info w tmp_path) as Hinfo.
    destruct (upload_one w tmp_path) as [[info|e] tr]; simpl in *.
    + split; [apply elem_of_union; left; by apply elem_of_singleton|].
      split; [by apply Hinfo | done].
    + split; [apply elem_of_union; left; by apply elem_of_singleton | done].
Qed.

Lemma X27_upload_endpoint_witness :
  upload_image (Some world_two_slots) (mkStore ∅ ∅) "image/gif" "/tmp/a"
    = (HTTPException 400, mkStore ∅ ∅, []).
Proof.
  destruct (X27_upload_endpoint (Some world_two_slots) (mkStore ∅ ∅) "image/gif" "/tmp/a")
    as (_ & H & _).
  apply (H world_two_slots); [reflexivity|].
  unfold allowed_types. rewrite !not_elem_of_cons.
  repeat split; try discriminate. apply not_elem_of_nil.
Defined.

(** X28. Deleting an image that is not registered answers 404 and changes
    nothing.  Deleting an image right after its upload, when its slot was not
    registered before, the temporary file is new and the unlink goes
    through, gives back the registry and the set of temporary files as they
    were before the upload. *)
Theorem X28_upload_then_delete
    (w : World) (st : Store) (content_type tmp_path : string) :
  (∀ fid unlinked,
     _uploaded_images st !! fid = None →
     delete_uploaded_image st fid unlinked = (HTTPException 404, st)) ∧
  (∀ info st' tr,
     upload_image (Some w) st content_type tmp_path = (Ok info, st', tr) →
     _uploaded_images st !! file_id info = None →
     tmp_path ≠ EmptyString →
     tmp_path ∉ files st →
     delete_uploaded_image st' (file_id info) true = (Ok tt, st)).
Proof.
  split.
  - intros fid unlinked Hnone. unfold delete_uploaded_image. by rewrite Hnone.
  - intros info st' tr Hup Hfresh Hname Hnew.
    pose proof (upload_one_info w tmp_path info) as Hinfo.
    unfold upload_image in Hup.
    destruct (bool_decide (content_type ∈ allowed_types)); [|done].
    destruct (upload_one w tmp_path) as [[info'|e] tr']; [|done].
    injection Hup as <- <- <-. specialize (Hinfo eq_refl).
    unfold delete_uploaded_image. simpl. rewrite lookup_insert_eq, Hinfo.
    rewrite bool_decide_true
      by (split; [done | apply elem_of_union; left; by apply elem_of_singleton]).
    simpl. destruct st as [registry disk]. simpl in *. f_equal. f_equal.
    + rewrite delete_insert_eq. by apply delete_id.
    + apply set_eq. intros x.
      rewrite elem_of_difference, elem_of_union, elem_of_singleton. split.
      * by intros [[->|?] ?].
      * intros Hx. split; [by right | by intros ->].
Qed.

Lemma X28_upload_then_delete_witness :
  delete_uploaded_image
    (snd (fst (upload_image (Some world_two_slots) (mkStore ∅ ∅) "image/png" "/tmp/a")))
    "slot-1" true
  = (Ok tt, mkStore ∅ ∅).
Proof.
  destruct (X28_upload_then_delete world_two_slots (mkStore ∅ ∅) "image/png" "/tmp/a")
    as [_ H].
  apply (H (mkImageInfo "slot-1" 800 600 "/tmp/a")
           (snd (fst (upload_image (Some world_two_slots) (mkStore ∅ ∅) "image/png" "/tmp/a")))
           [EvPermit 1; EvPut "slot-1" "/tmp/a"]);
    [reflexivity | reflexivity | discriminate | apply not_elem_of_empty].
Defined.

End Registry.
